(** * The model registry of the TTS HTTP server (python/tts_server.py)

    A shallow embedding of [ModelRegistry] and of the generation endpoints,
    and the lifecycle properties of the registry.

    Python objects are mutable and shared: [get_model], [load_model] and
    [unload_model] hand out the [ModelInfo] object that sits in the
    registry's dict, not a copy. The embedding therefore keeps an object
    store ([objects]) and lets the dict hold references into it.

    Every [with self._lock:] block is one atomic step; the code between two
    blocks only talks to the outside world (memory samples, the clock, the
    external [load_model], the garbage collector), whose answers are given
    to the model as an environment record. Logging is left out. *)

From Stdlib Require Import ZArith Lia String List Floats.
From stdpp Require Import base tactics option list relations strings.
Import ListNotations.

Local Open Scope string_scope.
Local Open Scope list_scope.

(** ** Data model *)

(** [class ModelState(Enum)] *)
Inductive ModelState : Type :=
  | UNLOADED
  | LOADING
  | LOADED
  | UNLOADING
  | ERROR.

#[global] Instance ModelState_eq_dec : EqDecision ModelState.
Proof. solve_decision. Defined.

(** [ModelState.value] *)
Definition ModelState_value (s : ModelState) : string :=
  match s with
  | UNLOADED => "unloaded"
  | LOADING => "loading"
  | LOADED => "loaded"
  | UNLOADING => "unloading"
  | ERROR => "error"
  end.

(** The object returned by the external [load_model]: opaque but for its
    identity and the [sample_rate] attribute the endpoints read. *)
Record Model : Type := mkModel {
  model_uid : nat;
  sample_rate : Z
}.

(** [@dataclass class ModelInfo]. Python floats are IEEE binary64 numbers,
    which is what [float] (PrimFloat) is. *)
Record ModelInfo : Type := mkModelInfo {
  model_id : string;
  state : ModelState;
  memory_before_mb : option float;
  memory_after_mb : option float;
  memory_delta_mb : option float;
  load_time_seconds : option float;
  error_message : option string;
  model_instance : option Model
}.

(** [ModelInfo(model_id=model_id)]: every other field takes its default. *)
Definition ModelInfo_new (id : string) : ModelInfo :=
  {| model_id := id;
     state := UNLOADED;
     memory_before_mb := None;
     memory_after_mb := None;
     memory_delta_mb := None;
     load_time_seconds := None;
     error_message := None;
     model_instance := None |}.

#[global] Instance ModelInfo_inhabited : Inhabited ModelInfo :=
  populate (ModelInfo_new "").

(** Attribute assignments [info.<field> = v]. *)
Definition set_state (v : ModelState) (r : ModelInfo) : ModelInfo :=
  mkModelInfo (model_id r) v (memory_before_mb r) (memory_after_mb r)
    (memory_delta_mb r) (load_time_seconds r) (error_message r)
    (model_instance r).

Definition set_memory_before_mb (v : option float) (r : ModelInfo) : ModelInfo :=
  mkModelInfo (model_id r) (state r) v (memory_after_mb r)
    (memory_delta_mb r) (load_time_seconds r) (error_message r)
    (model_instance r).

Definition set_memory_after_mb (v : option float) (r : ModelInfo) : ModelInfo :=
  mkModelInfo (model_id r) (state r) (memory_before_mb r) v
    (memory_delta_mb r) (load_time_seconds r) (error_message r)
    (model_instance r).

Definition set_memory_delta_mb (v : option float) (r : ModelInfo) : ModelInfo :=
  mkModelInfo (model_id r) (state r) (memory_before_mb r) (memory_after_mb r)
    v (load_time_seconds r) (error_message r) (model_instance r).

Definition set_load_time_seconds (v : option float) (r : ModelInfo) : ModelInfo :=
  mkModelInfo (model_id r) (state r) (memory_before_mb r) (memory_after_mb r)
    (memory_delta_mb r) v (error_message r) (model_instance r).

Definition set_error_message (v : option string) (r : ModelInfo) : ModelInfo :=
  mkModelInfo (model_id r) (state r) (memory_before_mb r) (memory_after_mb r)
    (memory_delta_mb r) (load_time_seconds r) v (model_instance r).

Definition set_model_instance (v : option Model) (r : ModelInfo) : ModelInfo :=
  mkModelInfo (model_id r) (state r) (memory_before_mb r) (memory_after_mb r)
    (memory_delta_mb r) (load_time_seconds r) (error_message r) v.

(** ** The object store and the registry's dict *)

(** A reference to a [ModelInfo] object: its index in the store. *)
Definition ref : Type := nat.

(** A Python dict keeps its keys in insertion order, which
    [get_all_models] exposes, so [_models] is an association list. *)
Definition dict : Type := list (string * ref).

Fixpoint dict_get (d : dict) (k : string) : option ref :=
  match d with
  | [] => None
  | (k', v) :: d' => if String.eqb k' k then Some v else dict_get d' k
  end.

(** [k in d] *)
Definition dict_contains (d : dict) (k : string) : bool :=
  match dict_get d k with Some _ => true | None => false end.

(** [d[k] = v]: overwrite in place, or append a new key. *)
Fixpoint dict_setitem (d : dict) (k : string) (v : ref) : dict :=
  match d with
  | [] => [(k, v)]
  | (k', v') :: d' =>
      if String.eqb k' k then (k', v) :: d' else (k', v') :: dict_setitem d' k v
  end.

(** [list(d.values())] *)
Definition dict_values (d : dict) : list ref := map snd d.

(** The registry: the [ModelInfo] objects allocated so far and the
    [_models] dict. [_lock] is the atomicity of the steps below. *)
Record ModelRegistry : Type := mkRegistry {
  objects : list ModelInfo;
  _models : dict
}.

(** Reading through a reference. The registry only hands out references
    it allocated (see [wf_registry]), so the default is never read. *)
Definition deref (σ : ModelRegistry) (l : ref) : ModelInfo := objects σ !!! l.

(** Writing through a reference: [info.<field> = v] for [info] at [l]. *)
Definition modify (l : ref) (f : ModelInfo -> ModelInfo) (σ : ModelRegistry)
  : ModelRegistry :=
  mkRegistry (alter f l (objects σ)) (_models σ).

(** [self._models[model_id] = ModelInfo(model_id=model_id)] *)
Definition register (σ : ModelRegistry) (id : string) : ModelRegistry :=
  mkRegistry (objects σ ++ [ModelInfo_new id])
             (dict_setitem (_models σ) id (length (objects σ))).

(** The record the registry holds for [id], if any. *)
Definition record_of (σ : ModelRegistry) (id : string) : option ModelInfo :=
  l ← dict_get (_models σ) id; objects σ !! l.

Definition CLONE_MODELS : list string :=
  [ "mlx-community/Qwen3-TTS-12Hz-0.6B-Base-bf16";
    "mlx-community/Qwen3-TTS-12Hz-1.7B-Base-bf16" ].

Definition CONTROL_MODELS : list string :=
  [ "mlx-community/Qwen3-TTS-12Hz-0.6B-CustomVoice-bf16";
    "mlx-community/Qwen3-TTS-12Hz-1.7B-CustomVoice-bf16" ].

Definition DESIGN_MODEL : string :=
  "mlx-community/Qwen3-TTS-12Hz-1.7B-VoiceDesign-bf16".

(** [ModelRegistry.__init__] *)
Definition ModelRegistry_init : ModelRegistry :=
  fold_left register (CLONE_MODELS ++ CONTROL_MODELS ++ [DESIGN_MODEL])
    (mkRegistry [] []).

(** The module-level [registry = ModelRegistry()]. *)
Definition registry : ModelRegistry := ModelRegistry_init.

(** ** Exceptions, results and the outside world *)

(** The exceptions that occur. [RuntimeError msg] is an instance of
    [RuntimeError] or of a subclass, the ones [except RuntimeError]
    catches, with [str(e) = msg]; [OtherException cls msg] is an instance
    of any class [cls] outside that family. *)
Inductive PyExn : Type :=
  | RuntimeError (msg : string)
  | ValueError (msg : string)
  | KeyError (key : string)
  | AttributeError (msg : string)
  | HTTPException (status_code : Z) (detail : string)
  | OtherException (cls msg : string).

Inductive Result (A : Type) : Type :=
  | Returns (a : A)
  | Raises (e : PyExn).
Arguments Returns {A} a.
Arguments Raises {A} e.

(** [get_memory_mb]: [rss / (1024 * 1024)], the true division of two
    ints, for the resident set size [rss] the process reports (a byte
    count, below 2^63). *)
Definition get_memory_mb (rss : Z) : float :=
  PrimFloat.div (PrimFloat.of_uint63 (Uint63.of_Z rss))
                (PrimFloat.of_uint63 (Uint63.of_Z (1024 * 1024))).

(** What the outside world answers during one [load_model] call: the
    resident set size at line 147, [time.time()] at line 150, the result
    of the external [load_model] at line 153, [time.time()] at line 154
    and the resident set size at line 155. *)
Record LoadEnv : Type := mkLoadEnv {
  rss_before : Z;
  time_start : float;
  load_result : Result Model;
  time_end : float;
  rss_after : Z
}.

(** During one [unload_model] call: the resident set size at line 199 and
    at line 215. [gc.collect()], the import of [mlx.core] and
    [mx.clear_cache()] are taken to return. *)
Record UnloadEnv : Type := mkUnloadEnv {
  rss_before_unload : Z;
  rss_after_unload : Z
}.

(** The calls a function makes to the outside world, in order. *)
Inductive Event : Type :=
  | EvGetMemory (mb : float)
  | EvTime (t : float)
  | EvLoadModel (id : string) (res : Result Model)
  | EvGcCollect
  | EvClearCache
  | EvGenerate (m : Model) (method : string) (kwargs : list (string * string))
  | EvSaveAudio (audio : list float) (rate : Z) (output_path : string).

(** ** Queries *)

(** [get_model]: [self._models.get(model_id)], the object itself. *)
Definition get_model (σ : ModelRegistry) (id : string) : option ref :=
  dict_get (_models σ) id.

(** [get_all_models]: a new list of the objects themselves. *)
Definition get_all_models (σ : ModelRegistry) : list ref :=
  dict_values (_models σ).

(** ** The critical sections of [load_model] and [unload_model] *)

(** How a first critical section ends: the method returns or raises from
    inside it, or goes on to the work outside the lock. *)
Inductive Entry : Type :=
  | Leave (r : Result ref)
  | Proceed.

(** Lines 126-143. *)
Definition load_enter (σ : ModelRegistry) (id : string) : ModelRegistry * Entry :=
  let σ1 := if dict_contains (_models σ) id then σ else register σ id in
  match dict_get (_models σ1) id with
  | None => (σ1, Leave (Raises (KeyError id)))
  | Some info =>
      if decide (state (deref σ1 info) = LOADED) then (σ1, Leave (Returns info))
      else if decide (state (deref σ1 info) = LOADING) then (σ1, Leave (Returns info))
      else (modify info (set_error_message None)
              (modify info (set_state LOADING) σ1), Proceed)
  end.

(** Lines 158-165 (and the [return info] of line 171). *)
Definition load_commit (σ : ModelRegistry) (id : string) (model : Model)
    (memory_before memory_after memory_delta load_time : float)
  : ModelRegistry * Result ref :=
  match dict_get (_models σ) id with
  | None => (σ, Raises (KeyError id))
  | Some info =>
      (modify info (set_load_time_seconds (Some load_time))
        (modify info (set_memory_delta_mb (Some memory_delta))
          (modify info (set_memory_after_mb (Some memory_after))
            (modify info (set_memory_before_mb (Some memory_before))
              (modify info (set_model_instance (Some model))
                (modify info (set_state LOADED) σ))))),
       Returns info)
  end.

(** Lines 177-182: the handler of [except RuntimeError as e], entered with
    [error_msg = str(e)]; it ends in [raise]. *)
Definition load_fail (σ : ModelRegistry) (id : string) (e : PyExn)
    (error_msg : string) : ModelRegistry * Result ref :=
  match dict_get (_models σ) id with
  | None => (σ, Raises (KeyError id))
  | Some info =>
      (modify info (set_error_message (Some error_msg))
        (modify info (set_state ERROR) σ),
       Raises e)
  end.

(** Lines 186-196. *)
Definition unload_enter (σ : ModelRegistry) (id : string) : ModelRegistry * Entry :=
  if negb (dict_contains (_models σ) id)
  then (σ, Leave (Raises (ValueError ("Unknown model: " ++ id))))
  else
    match dict_get (_models σ) id with
    | None => (σ, Leave (Raises (KeyError id)))
    | Some info =>
        if decide (state (deref σ info) <> LOADED) then (σ, Leave (Returns info))
        else (modify info (set_state UNLOADING) σ, Proceed)
    end.

(** Lines 203-205. *)
Definition unload_clear (σ : ModelRegistry) (id : string)
  : ModelRegistry * Result unit :=
  match dict_get (_models σ) id with
  | None => (σ, Raises (KeyError id))
  | Some info => (modify info (set_model_instance None) σ, Returns tt)
  end.

(** Lines 218-223 (and the [return info] of line 228). *)
Definition unload_commit (σ : ModelRegistry) (id : string)
    (memory_before memory_after memory_delta : float)
  : ModelRegistry * Result ref :=
  match dict_get (_models σ) id with
  | None => (σ, Raises (KeyError id))
  | Some info =>
      (modify info (set_memory_delta_mb (Some memory_delta))
        (modify info (set_memory_after_mb (Some memory_after))
          (modify info (set_memory_before_mb (Some memory_before))
            (modify info (set_state UNLOADED) σ))),
       Returns info)
  end.

(** ** The two methods, run from call to return *)

(** [ModelRegistry.load_model]: the registry afterwards, the returned
    reference or the raised exception, and the outside calls made. *)
Definition load_model (env : LoadEnv) (σ : ModelRegistry) (id : string)
  : ModelRegistry * Result ref * list Event :=
  match load_enter σ id with
  | (σ1, Leave r) => (σ1, r, [])
  | (σ1, Proceed) =>
      let memory_before := get_memory_mb (rss_before env) in
      let start_time := time_start env in
      match load_result env with
      | Returns model =>
          let load_time := PrimFloat.sub (time_end env) start_time in
          let memory_after := get_memory_mb (rss_after env) in
          let memory_delta := PrimFloat.sub memory_after memory_before in
          let '(σ2, r) := load_commit σ1 id model memory_before memory_after
                            memory_delta load_time in
          (σ2, r, [EvGetMemory memory_before; EvTime start_time;
                   EvLoadModel id (Returns model);
                   EvTime (time_end env); EvGetMemory memory_after])
      | Raises (RuntimeError error_msg) =>
          let '(σ2, r) := load_fail σ1 id (RuntimeError error_msg) error_msg in
          (σ2, r, [EvGetMemory memory_before; EvTime start_time;
                   EvLoadModel id (Raises (RuntimeError error_msg))])
      | Raises e =>
          (σ1, Raises e, [EvGetMemory memory_before; EvTime start_time;
                          EvLoadModel id (Raises e)])
      end
  end.

(** [ModelRegistry.unload_model]. *)
Definition unload_model (env : UnloadEnv) (σ : ModelRegistry) (id : string)
  : ModelRegistry * Result ref * list Event :=
  match unload_enter σ id with
  | (σ1, Leave r) => (σ1, r, [])
  | (σ1, Proceed) =>
      let memory_before := get_memory_mb (rss_before_unload env) in
      match unload_clear σ1 id with
      | (σ2, Raises e) => (σ2, Raises e, [EvGetMemory memory_before])
      | (σ2, Returns _) =>
          let memory_after := get_memory_mb (rss_after_unload env) in
          let memory_delta := PrimFloat.sub memory_after memory_before in
          let '(σ3, r) := unload_commit σ2 id memory_before memory_after
                            memory_delta in
          (σ3, r, [EvGetMemory memory_before; EvGcCollect; EvClearCache;
                   EvGetMemory memory_after])
      end
  end.

(** ** Calls in flight

    A call of [load_model] or [unload_model] holds the lock only inside its
    [with] blocks; between two blocks other calls may run. A [Thread] is a
    call together with the place it has reached. *)
Inductive Thread : Type :=
  | LoadEntering (id : string) (env : LoadEnv)
      (** before the block of line 126 *)
  | LoadCalling (id : string) (env : LoadEnv)
      (** lock released, lines 146-156; next is line 158 or line 177 *)
  | UnloadEntering (id : string) (env : UnloadEnv)
      (** before the block of line 186 *)
  | UnloadClearing (id : string) (env : UnloadEnv)
      (** lock released, lines 198-200; next is the block of line 203 *)
  | UnloadCommitting (id : string) (env : UnloadEnv)
      (** lock released, lines 207-216; next is the block of line 218 *)
  | Finished (r : Result ref).

Definition is_finished (t : Thread) : bool :=
  match t with Finished _ => true | _ => false end.

(** One atomic step of a call: the code up to and including its next
    critical section. *)
Definition thread_step (σ : ModelRegistry) (t : Thread) : ModelRegistry * Thread :=
  match t with
  | LoadEntering id env =>
      match load_enter σ id with
      | (σ1, Leave r) => (σ1, Finished r)
      | (σ1, Proceed) => (σ1, LoadCalling id env)
      end
  | LoadCalling id env =>
      let memory_before := get_memory_mb (rss_before env) in
      match load_result env with
      | Returns model =>
          let load_time := PrimFloat.sub (time_end env) (time_start env) in
          let memory_after := get_memory_mb (rss_after env) in
          let memory_delta := PrimFloat.sub memory_after memory_before in
          let '(σ2, r) := load_commit σ id model memory_before memory_after
                            memory_delta load_time in
          (σ2, Finished r)
      | Raises (RuntimeError error_msg) =>
          let '(σ2, r) := load_fail σ id (RuntimeError error_msg) error_msg in
          (σ2, Finished r)
      | Raises e => (σ, Finished (Raises e))
      end
  | UnloadEntering id env =>
      match unload_enter σ id with
      | (σ1, Leave r) => (σ1, Finished r)
      | (σ1, Proceed) => (σ1, UnloadClearing id env)
      end
  | UnloadClearing id env =>
      match unload_clear σ id with
      | (σ2, Raises e) => (σ2, Finished (Raises e))
      | (σ2, Returns _) => (σ2, UnloadCommitting id env)
      end
  | UnloadCommitting id env =>
      let memory_before := get_memory_mb (rss_before_unload env) in
      let memory_after := get_memory_mb (rss_after_unload env) in
      let memory_delta := PrimFloat.sub memory_after memory_before in
      let '(σ3, r) := unload_commit σ id memory_before memory_after
                        memory_delta in
      (σ3, Finished r)
  | Finished r => (σ, Finished r)
  end.

(** A request to the registry's mutation surface. *)
Inductive Request : Type :=
  | ReqLoad (id : string) (env : LoadEnv)
  | ReqUnload (id : string) (env : UnloadEnv).

Definition spawn (req : Request) : Thread :=
  match req with
  | ReqLoad id env => LoadEntering id env
  | ReqUnload id env => UnloadEntering id env
  end.

(** The registry and the calls made so far. *)
Definition Config : Type := ModelRegistry * list Thread.

Definition quiescent (pool : list Thread) : bool := forallb is_finished pool.

(** One step of the system: a new call arrives, or a call in flight runs
    its next critical section. With [overlap = false] a call only arrives
    when every earlier one has returned, which is how the server's
    [async def] handlers, which never await, run the registry; with
    [overlap = true] calls arrive at any time, which is what the lock is
    there for. *)
Inductive cstep (overlap : bool) : Config -> Config -> Prop :=
  | cstep_call σ pool req :
      (overlap = false -> quiescent pool = true) ->
      cstep overlap (σ, pool) (σ, pool ++ [spawn req])
  | cstep_run σ pool i t :
      pool !! i = Some t ->
      is_finished t = false ->
      cstep overlap (σ, pool)
        ((thread_step σ t).1, <[i := (thread_step σ t).2]> pool).

Definition initial : Config := (registry, []).

(** The configurations the system reaches. *)
Definition reachable (overlap : bool) (c : Config) : Prop :=
  rtc (cstep overlap) initial c.

(** Schedules, to run the system on concrete inputs. *)
Inductive Action : Type :=
  | Call (req : Request)
  | Run (i : nat).

Definition exec1 (overlap : bool) (c : Config) (a : Action) : option Config :=
  match a with
  | Call req =>
      if overlap || quiescent c.2 then Some (c.1, c.2 ++ [spawn req]) else None
  | Run i =>
      match c.2 !! i with
      | Some t =>
          if is_finished t then None
          else Some ((thread_step c.1 t).1, <[i := (thread_step c.1 t).2]> c.2)
      | None => None
      end
  end.

Fixpoint exec (overlap : bool) (c : Config) (sched : list Action) : option Config :=
  match sched with
  | [] => Some c
  | a :: sched' =>
      match exec1 overlap c a with
      | Some c' => exec overlap c' sched'
      | None => None
      end
  end.

(** ** The generation endpoints *)

Module GenerateCloneRequest.
Record t : Type := mk {
  model_id : string;
  text : string;
  ref_audio_path : string;
  ref_text : option string;
  output_path : string
}.
End GenerateCloneRequest.

Module GenerateControlRequest.
Record t : Type := mk {
  model_id : string;
  text : string;
  speaker : string;
  language : string;
  instruct : option string;
  output_path : string
}.
End GenerateControlRequest.

Module GenerateDesignRequest.
Record t : Type := mk {
  text : string;
  language : string;
  instruct : string;
  output_path : string
}.
End GenerateDesignRequest.

Record GenerateResponse : Type := mkGenerateResponse {
  output_path : string;
  success : bool;
  error : option string
}.

(** Truth value of an [Optional[str]]: [None] and the empty string are
    false. *)
Definition truthy (s : option string) : bool :=
  match s with
  | None => false
  | Some s' => negb (String.eqb s' "")
  end.

(** What the model's generator yields: the [audio] of each result, or the
    exception it raises. *)
Definition GenEnv : Type := Result (list (list float)).

(** [model = info.model_instance; sample_rate = model.sample_rate] and the
    part the three endpoints share from [results = list(...)] on.
    [save_audio] is taken to return. *)
Definition generate_with (env : GenEnv) (instance : option Model)
    (method : string) (kwargs : list (string * string)) (out : string)
  : Result GenerateResponse * list Event :=
  match instance with
  | None =>
      (Raises (AttributeError
                 "'NoneType' object has no attribute 'sample_rate'"), [])
  | Some model =>
      let rate := sample_rate model in
      match env with
      | Raises e => (Raises e, [EvGenerate model method kwargs])
      | Returns [] =>
          (Raises (RuntimeError "No audio generated"),
           [EvGenerate model method kwargs])
      | Returns (audio :: _) =>
          (Returns (mkGenerateResponse out true None),
           [EvGenerate model method kwargs; EvSaveAudio audio rate out])
      end
  end.

(** [generate_clone] *)
Definition generate_clone (env : GenEnv) (σ : ModelRegistry)
    (request : GenerateCloneRequest.t) : Result GenerateResponse * list Event :=
  let id := GenerateCloneRequest.model_id request in
  match get_model σ id with
  | None => (Raises (HTTPException 400 ("Model " ++ id ++ " not loaded")), [])
  | Some info =>
      if decide (state (deref σ info) <> LOADED)
      then (Raises (HTTPException 400 ("Model " ++ id ++ " not loaded")), [])
      else
        let kwargs :=
          [("text", GenerateCloneRequest.text request);
           ("ref_audio", GenerateCloneRequest.ref_audio_path request)]
          ++ (if truthy (GenerateCloneRequest.ref_text request)
              then [("ref_text",
                     default "" (GenerateCloneRequest.ref_text request))]
              else []) in
        generate_with env (model_instance (deref σ info)) "generate" kwargs
          (GenerateCloneRequest.output_path request)
  end.

(** [generate_control] *)
Definition generate_control (env : GenEnv) (σ : ModelRegistry)
    (request : GenerateControlRequest.t) : Result GenerateResponse * list Event :=
  let id := GenerateControlRequest.model_id request in
  match get_model σ id with
  | None => (Raises (HTTPException 400 ("Model " ++ id ++ " not loaded")), [])
  | Some info =>
      if decide (state (deref σ info) <> LOADED)
      then (Raises (HTTPException 400 ("Model " ++ id ++ " not loaded")), [])
      else
        let kwargs :=
          [("text", GenerateControlRequest.text request);
           ("speaker", GenerateControlRequest.speaker request);
           ("language", GenerateControlRequest.language request)]
          ++ (if truthy (GenerateControlRequest.instruct request)
              then [("instruct",
                     default "" (GenerateControlRequest.instruct request))]
              else []) in
        generate_with env (model_instance (deref σ info))
          "generate_custom_voice" kwargs
          (GenerateControlRequest.output_path request)
  end.

(** [generate_design]: the target is always [DESIGN_MODEL]. *)
Definition generate_design (env : GenEnv) (σ : ModelRegistry)
    (request : GenerateDesignRequest.t) : Result GenerateResponse * list Event :=
  match get_model σ DESIGN_MODEL with
  | None => (Raises (HTTPException 400 "VoiceDesign model not loaded"), [])
  | Some info =>
      if decide (state (deref σ info) <> LOADED)
      then (Raises (HTTPException 400 "VoiceDesign model not loaded"), [])
      else
        let kwargs :=
          [("text", GenerateDesignRequest.text request);
           ("language", GenerateDesignRequest.language request);
           ("instruct", GenerateDesignRequest.instruct request)] in
        generate_with env (model_instance (deref σ info))
          "generate_voice_design" kwargs
          (GenerateDesignRequest.output_path request)
  end.

(** * Vocabulary of the properties *)

(** The dict's references are allocated and no two keys share an object. *)
Definition wf_registry (σ : ModelRegistry) : Prop :=
  forall id l, dict_get (_models σ) id = Some l ->
    l < length (objects σ) /\
    forall id', dict_get (_models σ) id' = Some l -> id' = id.

(** [writes σ σ' id r']: [σ'] is [σ] with the record of [id] now [r'];
    every other identifier keeps its record, and every identifier keeps the
    object it had. *)
Definition writes (σ σ' : ModelRegistry) (id : string) (r' : ModelInfo) : Prop :=
  wf_registry σ' /\
  record_of σ' id = Some r' /\
  (forall l, get_model σ id = Some l -> get_model σ' id = Some l) /\
  (forall id', id' <> id ->
     get_model σ' id' = get_model σ id' /\ record_of σ' id' = record_of σ id').

(** The record a call of [load_model] on [id] starts from: the one the
    registry holds, or the one line 128 creates. *)
Definition entry_record (σ : ModelRegistry) (id : string) : ModelInfo :=
  default (ModelInfo_new id) (record_of σ id).

Definition is_RuntimeError (e : PyExn) : bool :=
  match e with RuntimeError _ => true | _ => false end.

(** The cases of [thread_step], each with its effect on the registry. *)
Inductive step_effect (σ : ModelRegistry)
  : Thread -> ModelRegistry -> Thread -> Prop :=
  | eff_load_noop id env info r :
      get_model σ id = Some info -> record_of σ id = Some r ->
      state r = LOADED \/ state r = LOADING ->
      step_effect σ (LoadEntering id env) σ (Finished (Returns info))
  | eff_load_start id env σ1 :
      state (entry_record σ id) <> LOADED ->
      state (entry_record σ id) <> LOADING ->
      writes σ σ1 id
        (set_error_message None (set_state LOADING (entry_record σ id))) ->
      step_effect σ (LoadEntering id env) σ1 (LoadCalling id env)
  | eff_load_ok id env model info r σ2 :
      load_result env = Returns model ->
      get_model σ id = Some info -> record_of σ id = Some r ->
      writes σ σ2 id
        (set_load_time_seconds
           (Some (PrimFloat.sub (time_end env) (time_start env)))
          (set_memory_delta_mb
             (Some (PrimFloat.sub (get_memory_mb (rss_after env))
                                  (get_memory_mb (rss_before env))))
            (set_memory_after_mb (Some (get_memory_mb (rss_after env)))
              (set_memory_before_mb (Some (get_memory_mb (rss_before env)))
                (set_model_instance (Some model) (set_state LOADED r)))))) ->
      step_effect σ (LoadCalling id env) σ2 (Finished (Returns info))
  | eff_load_error id env msg info r σ2 :
      load_result env = Raises (RuntimeError msg) ->
      get_model σ id = Some info -> record_of σ id = Some r ->
      writes σ σ2 id (set_error_message (Some msg) (set_state ERROR r)) ->
      step_effect σ (LoadCalling id env) σ2 (Finished (Raises (RuntimeError msg)))
  | eff_load_uncaught id env e :
      load_result env = Raises e -> is_RuntimeError e = false ->
      step_effect σ (LoadCalling id env) σ (Finished (Raises e))
  | eff_load_lost id env res :
      get_model σ id = None ->
      step_effect σ (LoadCalling id env) σ (Finished res)
  | eff_unload_unknown id env :
      get_model σ id = None ->
      step_effect σ (UnloadEntering id env) σ
        (Finished (Raises (ValueError ("Unknown model: " ++ id))))
  | eff_unload_noop id env info r :
      get_model σ id = Some info -> record_of σ id = Some r ->
      state r <> LOADED ->
      step_effect σ (UnloadEntering id env) σ (Finished (Returns info))
  | eff_unload_start id env r σ1 :
      record_of σ id = Some r -> state r = LOADED ->
      writes σ σ1 id (set_state UNLOADING r) ->
      step_effect σ (UnloadEntering id env) σ1 (UnloadClearing id env)
  | eff_unload_clear id env r σ2 :
      record_of σ id = Some r ->
      writes σ σ2 id (set_model_instance None r) ->
      step_effect σ (UnloadClearing id env) σ2 (UnloadCommitting id env)
  | eff_unload_clear_lost id env :
      get_model σ id = None ->
      step_effect σ (UnloadClearing id env) σ (Finished (Raises (KeyError id)))
  | eff_unload_commit id env info r σ3 :
      get_model σ id = Some info -> record_of σ id = Some r ->
      writes σ σ3 id
        (set_memory_delta_mb
           (Some (PrimFloat.sub (get_memory_mb (rss_after_unload env))
                                (get_memory_mb (rss_before_unload env))))
          (set_memory_after_mb (Some (get_memory_mb (rss_after_unload env)))
            (set_memory_before_mb (Some (get_memory_mb (rss_before_unload env)))
              (set_state UNLOADED r)))) ->
      step_effect σ (UnloadCommitting id env) σ3 (Finished (Returns info))
  | eff_unload_commit_lost id env :
      get_model σ id = None ->
      step_effect σ (UnloadCommitting id env) σ (Finished (Raises (KeyError id)))
  | eff_finished res :
      step_effect σ (Finished res) σ (Finished res).

(** Every identifier keeps the object it has. *)
Definition keeps_refs (σ σ' : ModelRegistry) : Prop :=
  forall id l, get_model σ id = Some l -> get_model σ' id = Some l.

(** The listed transitions of the lifecycle. *)
Inductive lifecycle : ModelState -> ModelState -> Prop :=
  | lc_load : lifecycle UNLOADED LOADING
  | lc_loaded : lifecycle LOADING LOADED
  | lc_failed : lifecycle LOADING ERROR
  | lc_unload : lifecycle LOADED UNLOADING
  | lc_unloaded : lifecycle UNLOADING UNLOADED
  | lc_retry : lifecycle ERROR LOADING.

(** The instance handle is there exactly in state [Loaded]. *)
Definition instance_iff_loaded (r : ModelInfo) : Prop :=
  is_Some (model_instance r) <-> state r = LOADED.

(** What a step may do to the record of [id]: leave its state, move it
    along the lifecycle, or create it (line 128) and take it from
    [Unloaded] to [Loading] in the same critical section. It never removes
    it. *)
Definition step_ok (σ σ' : ModelRegistry) (id : string) : Prop :=
  match record_of σ id, record_of σ' id with
  | Some r, Some r' => state r' = state r \/ lifecycle (state r) (state r')
  | Some _, None => False
  | None, Some r' =>
      r' = set_error_message None (set_state LOADING (ModelInfo_new id))
  | None, None => True
  end.

(** A record no call is working on. *)
Definition settled (r : ModelInfo) : Prop :=
  instance_iff_loaded r /\ state r <> UNLOADING.

(** The record of [id] while call [t] is where it is. *)
Definition expects (t : Thread) (id : string) (r : ModelInfo) : Prop :=
  match t with
  | LoadCalling id' _ =>
      if decide (id' = id) then state r = LOADING /\ model_instance r = None
      else settled r
  | UnloadClearing id' _ =>
      if decide (id' = id)
      then state r = UNLOADING /\ is_Some (model_instance r)
      else settled r
  | UnloadCommitting id' _ =>
      if decide (id' = id) then state r = UNLOADING /\ model_instance r = None
      else settled r
  | _ => settled r
  end.

(** The invariant of the system when calls do not overlap: all calls but
    the last have returned, and the records are as the last one expects. *)
Definition seq_inv (c : Config) : Prop :=
  wf_registry c.1 /\
  exists old t,
    quiescent old = true /\
    (c.2 = old /\ is_finished t = true \/
     c.2 = old ++ [t] /\ is_finished t = false) /\
    forall id r, record_of c.1 id = Some r -> expects t id r.

(** The record at the moment the external call starts. *)
Definition loading_record (r0 : ModelInfo) : ModelInfo :=
  set_error_message None (set_state LOADING r0).

(** A call run alone, step by step, is the method run from call to
    return: three steps are enough for either method. *)
Definition run_call (σ : ModelRegistry) (t : Thread) : ModelRegistry * Thread :=
  let '(σ1, t1) := thread_step σ t in
  let '(σ2, t2) := thread_step σ1 t1 in
  thread_step σ2 t2.

(** The target record of a generation request is absent or not [Loaded]. *)
Definition not_loaded (σ : ModelRegistry) (id : string) : Prop :=
  match get_model σ id with
  | None => True
  | Some info => state (deref σ info) <> LOADED
  end.

(** ** Concrete runs *)

Definition example_model : Model := mkModel 1 24000.

(** A load that succeeds: 100 MB resident before, 300 MB after, 2.5 s. *)
Definition example_load : LoadEnv :=
  mkLoadEnv (100 * 1048576) 1%float (Returns example_model) 3.5%float
    (300 * 1048576).

(** A load whose external call raises [RuntimeError(msg)]. *)
Definition example_load_error (msg : string) : LoadEnv :=
  mkLoadEnv (100 * 1048576) 1%float (Raises (RuntimeError msg)) 3.5%float
    (100 * 1048576).

(** A load whose external call raises an [OSError]. *)
Definition example_load_oserror : LoadEnv :=
  mkLoadEnv (100 * 1048576) 1%float
    (Raises (OtherException "OSError" "repository not found")) 3.5%float
    (100 * 1048576).

Definition example_unload : UnloadEnv :=
  mkUnloadEnv (300 * 1048576) (120 * 1048576).

(** The design model has been loaded; no call is in flight. *)
Definition loaded_schedule : list Action :=
  [Call (ReqLoad DESIGN_MODEL example_load); Run 0; Run 0].

Definition loaded_config : Config :=
  Eval vm_compute in default initial (exec false initial loaded_schedule).

(** ... and an unload of it has left its first critical section. *)
Definition unloading_schedule : list Action :=
  loaded_schedule ++ [Call (ReqUnload DESIGN_MODEL example_unload); Run 1].

Definition unloading_config : Config :=
  Eval vm_compute in default initial (exec false initial unloading_schedule).

(** ... and a second load arrives before the unload goes on. *)
Definition racing_config : Config :=
  (unloading_config.1,
   unloading_config.2 ++ [spawn (ReqLoad DESIGN_MODEL example_load)]).

(** A load of the design model has failed with ["out of memory"]. *)
Definition failed_schedule : list Action :=
  [Call (ReqLoad DESIGN_MODEL (example_load_error "out of memory"));
   Run 0; Run 0].

Definition failed_config : Config :=
  Eval vm_compute in default initial (exec false initial failed_schedule).

(** An identifier outside the catalog has been loaded. *)
Definition custom_schedule : list Action :=
  [Call (ReqLoad "C" example_load); Run 0; Run 0].

Definition custom_config : Config :=
  Eval vm_compute in default initial (exec false initial custom_schedule).

(** A load of the design model has failed with an [OSError]. *)
Definition stuck_schedule : list Action :=
  [Call (ReqLoad DESIGN_MODEL example_load_oserror); Run 0; Run 0].

Definition stuck_config : Config :=
  Eval vm_compute in default initial (exec false initial stuck_schedule).

(** Generation requests: a clone request for an identifier outside the
    catalog, a control request for a catalog model, a design request. *)
Definition example_clone : GenerateCloneRequest.t :=
  GenerateCloneRequest.mk "C" "hello" "/tmp/ref.wav" None "/tmp/out.wav".

Definition example_control : GenerateControlRequest.t :=
  GenerateControlRequest.mk
    "mlx-community/Qwen3-TTS-12Hz-0.6B-CustomVoice-bf16" "hello" "Vivian"
    "English" (Some "") "/tmp/out.wav".

Definition example_design : GenerateDesignRequest.t :=
  GenerateDesignRequest.mk "hello" "English" "a calm voice" "/tmp/out.wav".

(** * The model management endpoints *)

(** What the endpoints use of Python's builtins: [str(e)], and whether
    [e] is an instance of [Exception], which is what [except Exception]
    catches. *)
Record PyBuiltins : Type := mkPyBuiltins {
  str_exn : PyExn -> string;
  is_Exception : PyExn -> bool
}.

(** What is known of them: an exception made with one string argument
    prints as that string, and the classes named here derive from
    [Exception]. Nothing is said of [str] on a [KeyError] or of the other
    classes. *)
Definition python_builtins (py : PyBuiltins) : Prop :=
  (forall msg, str_exn py (RuntimeError msg) = msg) /\
  (forall msg, str_exn py (ValueError msg) = msg) /\
  (forall msg, is_Exception py (RuntimeError msg) = true) /\
  (forall msg, is_Exception py (ValueError msg) = true) /\
  (forall key, is_Exception py (KeyError key) = true) /\
  (forall msg, is_Exception py (AttributeError msg) = true).

(** [class LoadModelRequest(BaseModel)] *)
Module LoadModelRequest.
Record t : Type := mk {
  model_id : string
}.
End LoadModelRequest.

(** [class MemoryStats(BaseModel)] *)
Record MemoryStats : Type := mkMemoryStats {
  before_mb : option float;
  after_mb : option float;
  delta_mb : option float
}.

(** [class LoadModelResponse(BaseModel)] *)
Module LoadModelResponse.
Record t : Type := mk {
  model_id : string;
  state : string;
  memory : MemoryStats;
  load_time_seconds : option float;
  error : option string
}.
End LoadModelResponse.

(** [class UnloadModelResponse(BaseModel)] *)
Module UnloadModelResponse.
Record t : Type := mk {
  model_id : string;
  state : string;
  memory : MemoryStats;
  error : option string
}.
End UnloadModelResponse.

(** One element of the ["models"] list that [list_models] returns. *)
Module ModelEntry.
Record t : Type := mk {
  model_id : string;
  state : string;
  memory : MemoryStats;
  load_time_seconds : option float;
  error : option string
}.
End ModelEntry.

(** [list_models]: the value under the key ["models"]. *)
Definition list_models (σ : ModelRegistry) : list ModelEntry.t :=
  map (fun m =>
         ModelEntry.mk (model_id (deref σ m))
           (ModelState_value (state (deref σ m)))
           (mkMemoryStats (memory_before_mb (deref σ m))
              (memory_after_mb (deref σ m)) (memory_delta_mb (deref σ m)))
           (load_time_seconds (deref σ m))
           (error_message (deref σ m)))
      (get_all_models σ).

(** [load_model_endpoint]: the registry afterwards, the response (or the
    exception [except Exception] lets through) and the outside calls. *)
Definition load_model_endpoint (py : PyBuiltins) (env : LoadEnv)
    (σ : ModelRegistry) (request : LoadModelRequest.t)
  : ModelRegistry * Result LoadModelResponse.t * list Event :=
  let id := LoadModelRequest.model_id request in
  match load_model env σ id with
  | (σ', Returns info, trace) =>
      (σ',
       Returns
         (LoadModelResponse.mk (model_id (deref σ' info))
            (ModelState_value (state (deref σ' info)))
            (mkMemoryStats (memory_before_mb (deref σ' info))
               (memory_after_mb (deref σ' info))
               (memory_delta_mb (deref σ' info)))
            (load_time_seconds (deref σ' info))
            (error_message (deref σ' info))),
       trace)
  | (σ', Raises e, trace) =>
      if is_Exception py e then
        (σ',
         Returns
           (LoadModelResponse.mk id
              match get_model σ' id with
              | Some info => ModelState_value (state (deref σ' info))
              | None => "error"
              end
              (mkMemoryStats None None None) None (Some (str_exn py e))),
         trace)
      else (σ', Raises e, trace)
  end.

(** [unload_model_endpoint] *)
Definition unload_model_endpoint (py : PyBuiltins) (env : UnloadEnv)
    (σ : ModelRegistry) (request : LoadModelRequest.t)
  : ModelRegistry * Result UnloadModelResponse.t * list Event :=
  let id := LoadModelRequest.model_id request in
  match unload_model env σ id with
  | (σ', Returns info, trace) =>
      (σ',
       Returns
         (UnloadModelResponse.mk (model_id (deref σ' info))
            (ModelState_value (state (deref σ' info)))
            (mkMemoryStats (memory_before_mb (deref σ' info))
               (memory_after_mb (deref σ' info))
               (memory_delta_mb (deref σ' info)))
            (error_message (deref σ' info))),
       trace)
  | (σ', Raises e, trace) =>
      if is_Exception py e then
        (σ',
         Returns
           (UnloadModelResponse.mk id "error" (mkMemoryStats None None None)
              (Some (str_exn py e))),
         trace)
      else (σ', Raises e, trace)
  end.

(** ** Vocabulary of the further properties *)

(** The identifiers [list_models] reports, in its order. *)
Definition listed_ids (σ : ModelRegistry) : list string :=
  map ModelEntry.model_id (list_models σ).

(** The error message is there exactly in state [Error]. *)
Definition error_iff_failed (r : ModelInfo) : Prop :=
  is_Some (error_message r) <-> state r = ERROR.

(** Call [t] is past its first critical section on [id]: it will write to
    the record of [id] again. *)
Definition writing_phase (t : Thread) (id : string) : bool :=
  match t with
  | LoadCalling id' _ | UnloadClearing id' _ | UnloadCommitting id' _ =>
      bool_decide (id' = id)
  | _ => false
  end.

(** No call in [pool] is about to write to the record of [id]. *)
Definition untouched (pool : list Thread) (id : string) : bool :=
  forallb (fun t => negb (writing_phase t id)) pool.

(** Audio [a] was saved at [path] with rate [rate] for a request on [id]
    with output path [out]: the record of [id] is [Loaded] and holds a
    model, [rate] is that model's sample rate, [path] is [out], and [a] is
    the first result the generator yielded. *)
Definition saved_first (env : GenEnv) (σ : ModelRegistry) (id out : string)
    (a : list float) (rate : Z) (path : string) : Prop :=
  exists info m rest,
    get_model σ id = Some info /\
    state (deref σ info) = LOADED /\
    model_instance (deref σ info) = Some m /\
    env = Returns (a :: rest) /\
    rate = sample_rate m /\
    path = out.

(** The statistics of a record hang together: the three memory fields
    are absent together, or present together with the difference of the
    two samples as delta; a load time comes with memory statistics; and a
    [Loaded] record has a load time. *)
Definition stats_consistent (r : ModelInfo) : Prop :=
  (memory_before_mb r = None /\ memory_after_mb r = None /\
   memory_delta_mb r = None \/
   exists b a,
     memory_before_mb r = Some b /\ memory_after_mb r = Some a /\
     memory_delta_mb r = Some (PrimFloat.sub a b)) /\
  (is_Some (load_time_seconds r) -> is_Some (memory_before_mb r)) /\
  (state r = LOADED -> is_Some (load_time_seconds r)).

(** The dict holds each key once. *)
Definition dict_keys_distinct (d : dict) : Prop := NoDup (map fst d).

(** Builtins for the concrete runs: [str] of a [KeyError] is left as the
    key between quotes, of an HTTP exception as its detail; every
    exception but a [KeyboardInterrupt] is an [Exception]. *)
Definition example_python : PyBuiltins :=
  mkPyBuiltins
    (fun e =>
       match e with
       | RuntimeError msg | ValueError msg | AttributeError msg => msg
       | KeyError key => ("'" ++ key ++ "'")%string
       | HTTPException _ detail => detail
       | OtherException _ msg => msg
       end)
    (fun e =>
       match e with
       | OtherException cls _ => negb (String.eqb cls "KeyboardInterrupt")
       | _ => true
       end).

(** * Properties *)

(** ** The dict and the object store *)

Section dict_facts.
Implicit Types (d : dict) (k : string) (v : ref).

Lemma dict_get_setitem d k v k' :
  dict_get (dict_setitem d k v) k'
  = if decide (k = k') then Some v else dict_get d k'.
Proof.
  induction d as [|[k0 v0] d IH]; simpl.
  - destruct (String.eqb_spec k k'); case_decide; congruence.
  - destruct (String.eqb_spec k0 k) as [->|Hne]; simpl.
    + destruct (String.eqb_spec k k'); case_decide; congruence.
    + destruct (String.eqb_spec k0 k') as [->|Hne']; [|exact IH].
      case_decide; congruence.
Qed.

Lemma dict_contains_true d k :
  dict_contains d k = true <-> is_Some (dict_get d k).
Proof.
  unfold dict_contains. destruct (dict_get d k); split; intros H;
    try done; try (by eexists).
Qed.

Lemma dict_contains_false d k :
  dict_contains d k = false <-> dict_get d k = None.
Proof. unfold dict_contains. by destruct (dict_get d k). Qed.

Lemma dict_values_get d v :
  In v (dict_values d) -> exists k, In (k, v) d.
Proof.
  unfold dict_values. rewrite in_map_iff. intros [[k v'] [<- Hin]].
  by exists k.
Qed.

Lemma dict_get_values d k v : dict_get d k = Some v -> In v (dict_values d).
Proof.
  induction d as [|[k0 v0] d IH]; simpl; [done|].
  destruct (String.eqb k0 k); [intros [= ->]; by left | right; auto].
Qed.

End dict_facts.

Section store_facts.
Implicit Types (σ : ModelRegistry) (id : string) (l : ref)
  (f g : ModelInfo -> ModelInfo).

Lemma wf_modify l f σ : wf_registry σ -> wf_registry (modify l f σ).
Proof.
  intros Hwf id l' Hl'. simpl in *. rewrite length_alter. by apply Hwf.
Qed.

Lemma wf_register σ id : wf_registry σ -> wf_registry (register σ id).
Proof.
  intros Hwf id1 l1. unfold register; simpl.
  rewrite dict_get_setitem, length_app; simpl. case_decide as E1.
  - intros [= <-]. split; [lia|]. intros id2. rewrite dict_get_setitem.
    case_decide; [intros; congruence|]. intros H2.
    apply Hwf in H2 as [? _]. lia.
  - intros H1. destruct (Hwf _ _ H1) as [Hlt Hinj]. split; [lia|].
    intros id2. rewrite dict_get_setitem. case_decide; [|by apply Hinj].
    intros [= <-]. lia.
Qed.

Lemma wf_init : wf_registry ModelRegistry_init.
Proof.
  unfold ModelRegistry_init.
  generalize (CLONE_MODELS ++ CONTROL_MODELS ++ [DESIGN_MODEL]).
  assert (wf_registry (mkRegistry [] [])) as H by (intros ? ? [=]).
  revert H. generalize (mkRegistry [] []).
  intros σ H ids. revert σ H.
  induction ids as [|id ids IH]; intros σ H; simpl; [done|].
  apply IH. by apply wf_register.
Qed.

Lemma deref_record σ id l :
  wf_registry σ -> dict_get (_models σ) id = Some l ->
  record_of σ id = Some (deref σ l).
Proof.
  intros Hwf Hl. unfold record_of, deref. rewrite Hl; simpl.
  destruct (Hwf _ _ Hl) as [Hlt _].
  apply lookup_lt_is_Some_2 in Hlt as [r Hr].
  by rewrite (list_lookup_total_correct _ _ _ Hr).
Qed.

Lemma record_of_modify σ id l f id' :
  wf_registry σ -> dict_get (_models σ) id = Some l ->
  record_of (modify l f σ) id'
  = if decide (id = id') then f <$> record_of σ id' else record_of σ id'.
Proof.
  intros Hwf Hl. unfold record_of, modify; simpl.
  case_decide as E.
  - subst id'. rewrite Hl; simpl. apply list_lookup_alter_eq.
  - destruct (dict_get (_models σ) id') as [l'|] eqn:Hl'; simpl; [|done].
    apply list_lookup_alter_ne. intros <-.
    destruct (Hwf _ _ Hl) as [_ Hinj]. apply E. symmetry. by apply Hinj.
Qed.

Lemma record_of_register σ id id' :
  wf_registry σ ->
  record_of (register σ id) id'
  = if decide (id = id') then Some (ModelInfo_new id) else record_of σ id'.
Proof.
  intros Hwf. unfold record_of, register; simpl. rewrite dict_get_setitem.
  case_decide; simpl.
  - by rewrite lookup_app_r, Nat.sub_diag.
  - destruct (dict_get (_models σ) id') as [l'|] eqn:Hl'; simpl; [|done].
    apply lookup_app_l. by apply (Hwf _ _ Hl').
Qed.

Lemma record_of_None σ id :
  wf_registry σ -> record_of σ id = None <-> get_model σ id = None.
Proof.
  intros Hwf. unfold get_model.
  destruct (dict_get (_models σ) id) as [l|] eqn:Hl.
  - rewrite (deref_record _ _ _ Hwf Hl). split; intros [=].
  - unfold record_of. by rewrite Hl.
Qed.

End store_facts.

(** ** What a critical section does to the registry *)

Section writes_facts.
Implicit Types (σ : ModelRegistry) (id : string) (l : ref) (r : ModelInfo).

Lemma writes_refl σ id r :
  wf_registry σ -> record_of σ id = Some r -> writes σ σ id r.
Proof.
  intros Hwf Hr. split; [done|]. split; [done|]. split; [tauto|].
  by intros.
Qed.

Lemma writes_modify σ σ1 id l f r1 :
  writes σ σ1 id r1 -> get_model σ1 id = Some l ->
  writes σ (modify l f σ1) id (f r1).
Proof.
  intros (Hwf & Hr & Hsame & Hother) Hl. split; [by apply wf_modify|].
  split; [|split].
  - rewrite (record_of_modify _ _ _ _ _ Hwf Hl), decide_True by done.
    by rewrite Hr.
  - intros l0 H0. apply Hsame in H0. exact H0.
  - intros id' Hne. destruct (Hother id' Hne) as [Hg Hrec]. split; [exact Hg|].
    rewrite (record_of_modify _ _ _ _ _ Hwf Hl), decide_False by done.
    exact Hrec.
Qed.

Lemma writes_register σ id :
  wf_registry σ -> get_model σ id = None ->
  writes σ (register σ id) id (ModelInfo_new id).
Proof.
  intros Hwf Hnone. split; [by apply wf_register|]. split; [|split].
  - by rewrite record_of_register, decide_True.
  - intros l. by rewrite Hnone.
  - intros id' Hne. split.
    + unfold get_model, register; simpl. rewrite dict_get_setitem.
      by rewrite decide_False.
    + by rewrite record_of_register, decide_False.
Qed.

Lemma writes_get_model σ σ' id r' :
  writes σ σ' id r' -> exists l, get_model σ' id = Some l /\ deref σ' l = r'.
Proof.
  intros (Hwf & Hr & _). unfold get_model.
  destruct (dict_get (_models σ') id) as [l|] eqn:Hl.
  - exists l. split; [done|]. rewrite (deref_record _ _ _ Hwf Hl) in Hr.
    by injection Hr.
  - unfold record_of in Hr. by rewrite Hl in Hr.
Qed.

Lemma entry_record_Some σ id r : record_of σ id = Some r -> entry_record σ id = r.
Proof. unfold entry_record. by intros ->. Qed.

(** Lines 127-128. *)
Lemma writes_ensure σ id :
  wf_registry σ ->
  writes σ (if dict_contains (_models σ) id then σ else register σ id)
    id (entry_record σ id).
Proof.
  intros Hwf. destruct (dict_contains (_models σ) id) eqn:Hc.
  - apply dict_contains_true in Hc as [l Hl].
    apply writes_refl; [done|]. rewrite (deref_record _ _ _ Hwf Hl).
    unfold entry_record. by rewrite (deref_record _ _ _ Hwf Hl).
  - apply dict_contains_false in Hc.
    assert (record_of σ id = None) as Hn by (unfold record_of; by rewrite Hc).
    unfold entry_record. rewrite Hn. simpl. by apply writes_register.
Qed.

Lemma load_enter_spec σ id :
  wf_registry σ ->
  let r0 := entry_record σ id in
  if decide (state r0 = LOADED \/ state r0 = LOADING)
  then exists info,
      get_model σ id = Some info /\ record_of σ id = Some r0 /\
      load_enter σ id = (σ, Leave (Returns info))
  else exists σ1,
      load_enter σ id = (σ1, Proceed) /\
      writes σ σ1 id (set_error_message None (set_state LOADING r0)).
Proof.
  intros Hwf r0. unfold load_enter.
  pose proof (writes_ensure σ id Hwf) as Hw. fold r0 in Hw.
  destruct (writes_get_model _ _ _ _ Hw) as (info & Hinfo & Hd).
  unfold get_model in Hinfo. rewrite Hinfo, Hd.
  case_decide as Hst.
  - assert (dict_contains (_models σ) id = true) as Hc.
    { destruct (dict_contains (_models σ) id) eqn:Hc; [done|].
      apply dict_contains_false in Hc. exfalso.
      assert (r0 = ModelInfo_new id) as E.
      { unfold r0, entry_record, record_of. by rewrite Hc. }
      rewrite E in Hst. simpl in Hst. by destruct Hst. }
    rewrite Hc in *. exists info. split; [done|].
    split; [by destruct Hw as (_ & ? & _)|].
    destruct Hst as [-> | ->]; by repeat case_decide.
  - repeat case_decide; try tauto. eexists. split; [done|].
    apply writes_modify; [|done]. by apply writes_modify.
Qed.

Lemma load_commit_spec σ id info r model mb ma md lt :
  wf_registry σ -> get_model σ id = Some info -> record_of σ id = Some r ->
  exists σ',
    load_commit σ id model mb ma md lt = (σ', Returns info) /\
    writes σ σ' id
      (set_load_time_seconds (Some lt)
        (set_memory_delta_mb (Some md)
          (set_memory_after_mb (Some ma)
            (set_memory_before_mb (Some mb)
              (set_model_instance (Some model) (set_state LOADED r)))))).
Proof.
  intros Hwf Hinfo Hr. unfold load_commit. unfold get_model in Hinfo.
  rewrite Hinfo. eexists. split; [done|].
  repeat (apply writes_modify; [|done]). by apply writes_refl.
Qed.

Lemma load_fail_spec σ id info r e msg :
  wf_registry σ -> get_model σ id = Some info -> record_of σ id = Some r ->
  exists σ',
    load_fail σ id e msg = (σ', Raises e) /\
    writes σ σ' id (set_error_message (Some msg) (set_state ERROR r)).
Proof.
  intros Hwf Hinfo Hr. unfold load_fail. unfold get_model in Hinfo.
  rewrite Hinfo. eexists. split; [done|].
  repeat (apply writes_modify; [|done]). by apply writes_refl.
Qed.

Lemma unload_enter_spec σ id info r :
  wf_registry σ -> get_model σ id = Some info -> record_of σ id = Some r ->
  if decide (state r = LOADED)
  then exists σ1,
      unload_enter σ id = (σ1, Proceed) /\
      writes σ σ1 id (set_state UNLOADING r)
  else unload_enter σ id = (σ, Leave (Returns info)).
Proof.
  intros Hwf Hinfo Hr. unfold unload_enter.
  assert (dict_contains (_models σ) id = true) as ->.
  { apply dict_contains_true. by exists info. }
  simpl. unfold get_model in Hinfo. rewrite Hinfo.
  assert (deref σ info = r) as ->.
  { rewrite (deref_record _ _ _ Hwf Hinfo) in Hr. by injection Hr. }
  repeat case_decide; try tauto.
  eexists. split; [done|]. apply writes_modify; [|done].
  by apply writes_refl.
Qed.

Lemma unload_enter_unknown σ id :
  get_model σ id = None ->
  unload_enter σ id = (σ, Leave (Raises (ValueError ("Unknown model: " ++ id)))).
Proof.
  intros Hn. unfold unload_enter.
  by rewrite (proj2 (dict_contains_false _ _) Hn).
Qed.

Lemma unload_clear_spec σ id info r :
  wf_registry σ -> get_model σ id = Some info -> record_of σ id = Some r ->
  exists σ',
    unload_clear σ id = (σ', Returns tt) /\
    writes σ σ' id (set_model_instance None r).
Proof.
  intros Hwf Hinfo Hr. unfold unload_clear. unfold get_model in Hinfo.
  rewrite Hinfo. eexists. split; [done|].
  repeat (apply writes_modify; [|done]). by apply writes_refl.
Qed.

Lemma unload_commit_spec σ id info r mb ma md :
  wf_registry σ -> get_model σ id = Some info -> record_of σ id = Some r ->
  exists σ',
    unload_commit σ id mb ma md = (σ', Returns info) /\
    writes σ σ' id
      (set_memory_delta_mb (Some md)
        (set_memory_after_mb (Some ma)
          (set_memory_before_mb (Some mb) (set_state UNLOADED r)))).
Proof.
  intros Hwf Hinfo Hr. unfold unload_commit. unfold get_model in Hinfo.
  rewrite Hinfo. eexists. split; [done|].
  repeat (apply writes_modify; [|done]). by apply writes_refl.
Qed.

End writes_facts.

(** ** What one step of a call does *)

Lemma get_model_cases σ id :
  wf_registry σ ->
  get_model σ id = None \/
  exists info r, get_model σ id = Some info /\ record_of σ id = Some r.
Proof.
  intros Hwf. destruct (get_model σ id) as [info|] eqn:Hg; [right|by left].
  exists info, (deref σ info). split; [done|]. by apply deref_record.
Qed.

Lemma thread_step_effect σ t :
  wf_registry σ -> step_effect σ t (thread_step σ t).1 (thread_step σ t).2.
Proof.
  intros Hwf. destruct t as [id env|id env|id env|id env|id env|res]; simpl.
  - pose proof (load_enter_spec σ id Hwf) as Hs. simpl in Hs.
    case_decide as Hst.
    + destruct Hs as (info & Hg & Hr & ->). simpl.
      eapply eff_load_noop; eauto.
    + destruct Hs as (σ1 & -> & Hw). simpl.
      apply eff_load_start; [tauto|tauto|done].
  - destruct (get_model_cases σ id Hwf) as [Hn|(info & r & Hg & Hr)].
    + unfold load_commit, load_fail. unfold get_model in Hn. rewrite Hn.
      destruct (load_result env) as [model|[]]; simpl;
        by apply eff_load_lost.
    + destruct (load_result env) as [model|e] eqn:Hres.
      * edestruct (load_commit_spec σ id info r model) as (σ2 & -> & Hw);
          [done..|]. simpl. eapply eff_load_ok; eauto.
      * destruct e as [msg| | | | |];
          try (simpl; by apply eff_load_uncaught).
        edestruct (load_fail_spec σ id info r (RuntimeError msg) msg)
          as (σ2 & -> & Hw); [done..|]. simpl. eapply eff_load_error; eauto.
  - destruct (get_model_cases σ id Hwf) as [Hn|(info & r & Hg & Hr)].
    + rewrite (unload_enter_unknown _ _ Hn). simpl. by apply eff_unload_unknown.
    + pose proof (unload_enter_spec σ id info r Hwf Hg Hr) as Hs.
      case_decide as Hst.
      * destruct Hs as (σ1 & -> & Hw). simpl. eapply eff_unload_start; eauto.
      * rewrite Hs. simpl. eapply eff_unload_noop; eauto.
  - destruct (get_model_cases σ id Hwf) as [Hn|(info & r & Hg & Hr)].
    + unfold unload_clear. unfold get_model in Hn. rewrite Hn. simpl.
      by apply eff_unload_clear_lost.
    + edestruct (unload_clear_spec σ id info r) as (σ2 & -> & Hw); [done..|].
      simpl. eapply eff_unload_clear; eauto.
  - destruct (get_model_cases σ id Hwf) as [Hn|(info & r & Hg & Hr)].
    + unfold unload_commit. unfold get_model in Hn. rewrite Hn. simpl.
      by apply eff_unload_commit_lost.
    + edestruct (unload_commit_spec σ id info r) as (σ3 & -> & Hw); [done..|].
      simpl. eapply eff_unload_commit; eauto.
  - apply eff_finished.
Qed.

(** ** Facts that hold however the calls interleave *)

Lemma writes_keeps_refs σ σ' id r' : writes σ σ' id r' -> keeps_refs σ σ'.
Proof.
  intros (_ & _ & Hsame & Hother) id' l Hl.
  destruct (decide (id' = id)) as [->|Hne]; [by apply Hsame|].
  destruct (Hother id' Hne) as [-> _]. exact Hl.
Qed.

Lemma step_effect_frame σ t σ' t' :
  wf_registry σ -> step_effect σ t σ' t' -> wf_registry σ' /\ keeps_refs σ σ'.
Proof.
  intros Hwf Heff.
  inversion Heff; subst;
    try (split; [done | by intros ? ?]);
    match goal with
    | Hw : writes _ _ _ _ |- _ =>
        split; [by destruct Hw | by eapply writes_keeps_refs]
    end.
Qed.

Lemma cstep_frame overlap c c' :
  wf_registry c.1 -> cstep overlap c c' ->
  wf_registry c'.1 /\ keeps_refs c.1 c'.1.
Proof.
  intros Hwf Hstep. inversion Hstep; subst; simpl in *.
  - split; [done | by intros ? ?].
  - eapply step_effect_frame; [done|]. by apply thread_step_effect.
Qed.

Lemma rtc_cstep_frame overlap c c' :
  wf_registry c.1 -> rtc (cstep overlap) c c' ->
  wf_registry c'.1 /\ keeps_refs c.1 c'.1.
Proof.
  intros Hwf Hrtc. induction Hrtc as [c|c c1 c' Hstep _ IH].
  - split; [done | by intros ? ?].
  - destruct (cstep_frame _ _ _ Hwf Hstep) as [Hwf1 Hk1].
    destruct (IH Hwf1) as [Hwf' Hk']. split; [done|].
    intros id l Hl. by apply Hk', Hk1.
Qed.

Lemma reachable_wf overlap c : reachable overlap c -> wf_registry c.1.
Proof. intros H. eapply rtc_cstep_frame; [|exact H]. apply wf_init. Qed.

(** Calls that do not overlap are a special case of calls that may. *)
Lemma cstep_overlap c c' : cstep false c c' -> cstep true c c'.
Proof.
  intros H. inversion H; subst; [by apply cstep_call | by apply cstep_run].
Qed.

Lemma reachable_overlap c : reachable false c -> reachable true c.
Proof.
  unfold reachable. induction 1 as [|c0 c1 c2 Hstep _ IH]; [done|].
  eapply rtc_l; [by apply cstep_overlap | done].
Qed.

(** Running a schedule stays within the reachable configurations. *)
Lemma exec1_cstep overlap c a c' : exec1 overlap c a = Some c' -> cstep overlap c c'.
Proof.
  destruct c as [σ pool], a as [req|i]; simpl.
  - destruct (overlap || quiescent pool) eqn:E; [|done]. intros [= <-].
    apply cstep_call. intros ->. exact E.
  - destruct (pool !! i) as [t|] eqn:Ht; [|done].
    destruct (is_finished t) eqn:Hf; [done|]. intros [= <-].
    by apply cstep_run.
Qed.

Lemma exec_rtc overlap sched c c' :
  exec overlap c sched = Some c' -> rtc (cstep overlap) c c'.
Proof.
  revert c. induction sched as [|a sched IH]; intros c; simpl.
  - by intros [= ->].
  - destruct (exec1 overlap c a) as [c1|] eqn:E; [|done]. intros H.
    eapply rtc_l; [by eapply exec1_cstep | by apply IH].
Qed.

Lemma exec_reachable overlap sched c :
  exec overlap initial sched = Some c -> reachable overlap c.
Proof. apply exec_rtc. Qed.

(** ** Calls that do not overlap *)

Section sequential.
Implicit Types (σ : ModelRegistry) (id : string) (r : ModelInfo).

Lemma writes_records σ σ' id r' id' r :
  writes σ σ' id r' -> record_of σ' id' = Some r ->
  id' = id /\ r = r' \/ id' <> id /\ record_of σ id' = Some r.
Proof.
  intros (_ & Hr' & _ & Hother) Hr.
  destruct (decide (id' = id)) as [->|Hne].
  - left. split; [done|]. congruence.
  - right. split; [done|]. destruct (Hother id' Hne) as [_ <-]. exact Hr.
Qed.

Lemma step_ok_refl σ id : step_ok σ σ id.
Proof. unfold step_ok. destruct (record_of σ id); auto. Qed.

Lemma step_ok_writes σ σ' id r' :
  writes σ σ' id r' ->
  match record_of σ id with
  | Some r => state r' = state r \/ lifecycle (state r) (state r')
  | None => r' = set_error_message None (set_state LOADING (ModelInfo_new id))
  end ->
  forall id', step_ok σ σ' id'.
Proof.
  intros (_ & Hr' & _ & Hother) H id'. unfold step_ok.
  destruct (decide (id' = id)) as [->|Hne].
  - rewrite Hr'. destruct (record_of σ id); exact H.
  - destruct (Hother id' Hne) as [_ ->]. destruct (record_of σ id'); auto.
Qed.

Lemma settled_expects t id r :
  is_finished t = true -> expects t id r -> settled r.
Proof. by destruct t. Qed.

Lemma quiescent_lookup pool i t :
  quiescent pool = true -> pool !! i = Some t -> is_finished t = true.
Proof.
  unfold quiescent. rewrite forallb_forall. intros H Ht. apply H.
  apply list_elem_of_In. by eapply list_elem_of_lookup_2.
Qed.

Lemma quiescent_app pool t :
  quiescent (pool ++ [t]) = quiescent pool && is_finished t.
Proof.
  unfold quiescent. rewrite forallb_app. simpl. by rewrite andb_true_r.
Qed.

Lemma settled_new id : settled (ModelInfo_new id).
Proof.
  split; [|done]. split; simpl; [by intros [? [=]] | done].
Qed.

Lemma settled_entry σ id :
  (forall r, record_of σ id = Some r -> settled r) ->
  settled (entry_record σ id).
Proof.
  intros H. unfold entry_record.
  destruct (record_of σ id) as [r|]; simpl; [by apply H|apply settled_new].
Qed.

Lemma settled_no_instance r :
  settled r -> state r <> LOADED -> model_instance r = None.
Proof.
  intros [[Hi _] _] Hst. destruct (model_instance r) eqn:E; [|done].
  exfalso. apply Hst, Hi. by eexists.
Qed.

Lemma record_of_absent σ id : get_model σ id = None -> record_of σ id = None.
Proof. unfold get_model, record_of. by intros ->. Qed.

(** One step of the only call in flight keeps the records as the call
    expects them and moves states along the lifecycle only. *)
Lemma effect_preserves σ t σ' t' :
  step_effect σ t σ' t' ->
  (forall id r, record_of σ id = Some r -> expects t id r) ->
  (forall id r, record_of σ' id = Some r -> expects t' id r) /\
  (forall id, step_ok σ σ' id).
Proof.
  intros Heff Hinv.
  destruct Heff as
    [ id env info r Hg Hr Hst | id env σ1 Hn1 Hn2 Hw
    | id env model info r σ2 Hres Hg Hr Hw
    | id env msg info r σ2 Hres Hg Hr Hw
    | id env e Hres He | id env res Hg
    | id env Hg | id env info r Hg Hr Hst | id env r σ1 Hr Hst Hw
    | id env r σ2 Hr Hw | id env Hg
    | id env info r σ3 Hg Hr Hw | id env Hg | res ].
  - split; [exact Hinv | apply step_ok_refl].
  - assert (settled (entry_record σ id)) as Hset.
    { apply settled_entry. intros r Hr. exact (Hinv _ _ Hr). }
    split.
    + intros id0 r0 H0.
      destruct (writes_records _ _ _ _ _ _ Hw H0) as [[-> ->]|[Hne Hold]];
        simpl.
      * rewrite decide_True by done. split; [done|].
        by apply settled_no_instance.
      * rewrite decide_False by done. exact (Hinv _ _ Hold).
    + apply (step_ok_writes _ _ _ _ Hw). destruct Hset as [_ Hnu].
      unfold entry_record in *. destruct (record_of σ id) as [r|]; simpl in *;
        [|done].
      right. destruct (state r); try done; constructor.
  - pose proof (Hinv _ _ Hr) as Hid. simpl in Hid.
    rewrite decide_True in Hid by done. destruct Hid as [Hs Hi]. split.
    + intros id0 r0 H0.
      destruct (writes_records _ _ _ _ _ _ Hw H0) as [[-> ->]|[Hne Hold]].
      * split; [|done]. split; simpl; [done | by eexists].
      * pose proof (Hinv _ _ Hold) as Ho. simpl in Ho.
        by rewrite decide_False in Ho.
    + apply (step_ok_writes _ _ _ _ Hw). rewrite Hr. right. simpl.
      rewrite Hs. constructor.
  - pose proof (Hinv _ _ Hr) as Hid. simpl in Hid.
    rewrite decide_True in Hid by done. destruct Hid as [Hs Hi]. split.
    + intros id0 r0 H0.
      destruct (writes_records _ _ _ _ _ _ Hw H0) as [[-> ->]|[Hne Hold]].
      * split; [|done]. split; simpl; [|done]. rewrite Hi. by intros [? [=]].
      * pose proof (Hinv _ _ Hold) as Ho. simpl in Ho.
        by rewrite decide_False in Ho.
    + apply (step_ok_writes _ _ _ _ Hw). rewrite Hr. right. simpl.
      rewrite Hs. constructor.
  - split; [|apply step_ok_refl]. intros id0 r0 H0.
    pose proof (Hinv _ _ H0) as Ho. simpl in *. case_decide; [|done].
    destruct Ho as [Hs Hi]. split; [|by rewrite Hs]. split.
    + rewrite Hi. by intros [? [=]].
    + by rewrite Hs.
  - split; [|apply step_ok_refl]. intros id0 r0 H0.
    pose proof (Hinv _ _ H0) as Ho. simpl in *. case_decide; [|done].
    subst. rewrite (record_of_absent _ _ Hg) in H0. done.
  - split; [exact Hinv | apply step_ok_refl].
  - split; [exact Hinv | apply step_ok_refl].
  - pose proof (Hinv _ _ Hr) as [Hi _]. split.
    + intros id0 r0 H0.
      destruct (writes_records _ _ _ _ _ _ Hw H0) as [[-> ->]|[Hne Hold]];
        simpl.
      * rewrite decide_True by done. split; [done|]. by apply Hi.
      * rewrite decide_False by done. exact (Hinv _ _ Hold).
    + apply (step_ok_writes _ _ _ _ Hw). rewrite Hr. right. simpl.
      rewrite Hst. constructor.
  - pose proof (Hinv _ _ Hr) as Hid. simpl in Hid.
    rewrite decide_True in Hid by done. destruct Hid as [Hs Hi]. split.
    + intros id0 r0 H0.
      destruct (writes_records _ _ _ _ _ _ Hw H0) as [[-> ->]|[Hne Hold]];
        simpl.
      * by rewrite decide_True.
      * rewrite decide_False by done.
        pose proof (Hinv _ _ Hold) as Ho. simpl in Ho.
        by rewrite decide_False in Ho.
    + apply (step_ok_writes _ _ _ _ Hw). rewrite Hr. by left.
  - split; [|apply step_ok_refl]. intros id0 r0 H0.
    pose proof (Hinv _ _ H0) as Ho. simpl in *. case_decide; [|done].
    subst. rewrite (record_of_absent _ _ Hg) in H0. done.
  - pose proof (Hinv _ _ Hr) as Hid. simpl in Hid.
    rewrite decide_True in Hid by done. destruct Hid as [Hs Hi]. split.
    + intros id0 r0 H0.
      destruct (writes_records _ _ _ _ _ _ Hw H0) as [[-> ->]|[Hne Hold]].
      * split; [|done]. split; simpl; [|done]. rewrite Hi. by intros [? [=]].
      * pose proof (Hinv _ _ Hold) as Ho. simpl in Ho.
        by rewrite decide_False in Ho.
    + apply (step_ok_writes _ _ _ _ Hw). rewrite Hr. right. simpl.
      rewrite Hs. constructor.
  - split; [|apply step_ok_refl]. intros id0 r0 H0.
    pose proof (Hinv _ _ H0) as Ho. simpl in *. case_decide; [|done].
    subst. rewrite (record_of_absent _ _ Hg) in H0. done.
  - split; [exact Hinv | apply step_ok_refl].
Qed.

Lemma seq_inv_step c c' :
  seq_inv c -> cstep false c c' ->
  seq_inv c' /\ forall id, step_ok c.1 c'.1 id.
Proof.
  intros (Hwf & old & t & Hq & Hpool & Hrec) Hstep.
  inversion Hstep as [σ pool req Hov | σ pool i t1 Hi Hf]; subst; simpl in *.
  - specialize (Hov eq_refl). split; [|intros; apply step_ok_refl].
    split; [done|]. exists pool, (spawn req). split; [done|]. split.
    + right. split; [done|]. by destruct req.
    + intros id r Hr. assert (settled r) as Hs.
      { destruct Hpool as [[-> Hf]|[-> Hf]].
        - eapply settled_expects; eauto.
        - rewrite quiescent_app, Hf, andb_false_r in Hov. done. }
      by destruct req.
  - destruct Hpool as [[-> Hf0]|[-> Hf0]].
    { rewrite (quiescent_lookup _ _ _ Hq Hi) in Hf. done. }
    assert (i = length old /\ t1 = t) as [-> ->].
    { destruct (decide (i < length old)) as [Hlt|Hge].
      - rewrite lookup_app_l in Hi by done.
        rewrite (quiescent_lookup _ _ _ Hq Hi) in Hf. done.
      - pose proof (lookup_lt_Some _ _ _ Hi) as Hlt.
        rewrite length_app in Hlt. simpl in Hlt.
        assert (i = length old) as -> by lia.
        rewrite lookup_app_r, Nat.sub_diag in Hi by lia.
        simpl in Hi. by injection Hi. }
    pose proof (thread_step_effect σ t Hwf) as Heff.
    destruct (effect_preserves _ _ _ _ Heff Hrec) as [Hrec' Hok].
    destruct (step_effect_frame _ _ _ _ Hwf Heff) as [Hwf' _].
    split; [|exact Hok]. split; [done|].
    rewrite insert_app_r_alt, Nat.sub_diag by lia. simpl.
    destruct (is_finished (thread_step σ t).2) eqn:Hf'.
    + exists (old ++ [(thread_step σ t).2]), (thread_step σ t).2.
      split; [by rewrite quiescent_app, Hq, Hf'|]. split; [by left|done].
    + exists old, (thread_step σ t).2. split; [done|].
      split; [by right|done].
Qed.

(** [__init__] leaves every record as its constructor made it. *)
Lemma init_records id r :
  record_of ModelRegistry_init id = Some r -> exists id', r = ModelInfo_new id'.
Proof.
  unfold ModelRegistry_init.
  generalize (CLONE_MODELS ++ CONTROL_MODELS ++ [DESIGN_MODEL]).
  assert (wf_registry (mkRegistry [] [])) as Hwf by (intros ? ? [=]).
  assert (forall id r, record_of (mkRegistry [] []) id = Some r ->
                       exists id', r = ModelInfo_new id') as H by done.
  revert Hwf H. generalize (mkRegistry [] []).
  intros σ Hwf H ids. revert σ Hwf H id r.
  induction ids as [|a ids IH]; intros σ Hwf H id r; simpl; [by apply H|].
  apply IH; [by apply wf_register|]. intros id0 r0.
  rewrite record_of_register by done. case_decide; [|by apply H].
  intros [= <-]. by eexists.
Qed.

Lemma seq_inv_initial : seq_inv initial.
Proof.
  split; [apply wf_init|]. exists [], (Finished (Returns 0)).
  split; [done|]. split; [by left|]. intros id r Hr. simpl in *.
  destruct (init_records _ _ Hr) as [id' ->]. apply settled_new.
Qed.

Lemma reachable_seq_inv c : reachable false c -> seq_inv c.
Proof.
  revert c. apply rtc_ind_r; [apply seq_inv_initial|].
  intros c1 c2 _ Hstep IH. by destruct (seq_inv_step _ _ IH Hstep).
Qed.

(** With no call in flight every record is settled. *)
Lemma quiescent_settled σ pool id r :
  reachable false (σ, pool) -> quiescent pool = true ->
  record_of σ id = Some r -> settled r.
Proof.
  intros Hreach Hq Hr.
  destruct (reachable_seq_inv _ Hreach) as (_ & old & t & Hqo & Hpool & Hrec).
  simpl in *. destruct Hpool as [[-> Hf]|[-> Hf]].
  - eapply settled_expects; eauto.
  - rewrite quiescent_app, Hf, andb_false_r in Hq. done.
Qed.

End sequential.

(** ** The two methods, from call to return *)

Section methods.
Implicit Types (σ : ModelRegistry) (id : string) (r : ModelInfo).

Lemma writes_trans σ σ1 σ2 id r1 r2 :
  writes σ σ1 id r1 -> writes σ1 σ2 id r2 -> writes σ σ2 id r2.
Proof.
  intros (_ & _ & Hs1 & Ho1) (Hwf & Hr & Hs2 & Ho2).
  split; [done|]. split; [done|]. split; [by auto|].
  intros id' Hne. destruct (Ho1 id' Hne) as [<- <-]. by apply Ho2.
Qed.

Lemma load_model_noop σ id info env :
  get_model σ id = Some info ->
  state (deref σ info) = LOADED \/ state (deref σ info) = LOADING ->
  load_model env σ id = (σ, Returns info, []).
Proof.
  intros Hg Hst. unfold load_model, load_enter.
  assert (dict_contains (_models σ) id = true) as ->.
  { apply dict_contains_true. by exists info. }
  unfold get_model in Hg. rewrite Hg.
  destruct Hst as [-> | ->]; by repeat case_decide.
Qed.

Lemma unload_model_noop σ id info env :
  get_model σ id = Some info -> state (deref σ info) <> LOADED ->
  unload_model env σ id = (σ, Returns info, []).
Proof.
  intros Hg Hst. unfold unload_model, unload_enter.
  assert (dict_contains (_models σ) id = true) as ->.
  { apply dict_contains_true. by exists info. }
  unfold get_model in Hg. simpl. rewrite Hg. by case_decide.
Qed.

Lemma unload_model_unknown σ id env :
  get_model σ id = None ->
  unload_model env σ id
  = (σ, Raises (ValueError ("Unknown model: " ++ id)), []).
Proof.
  intros Hn. unfold unload_model. by rewrite (unload_enter_unknown _ _ Hn).
Qed.

Lemma load_model_success σ id env model :
  wf_registry σ ->
  state (entry_record σ id) <> LOADED ->
  state (entry_record σ id) <> LOADING ->
  load_result env = Returns model ->
  exists σ' info,
    load_model env σ id
    = (σ', Returns info,
       [EvGetMemory (get_memory_mb (rss_before env));
        EvTime (time_start env);
        EvLoadModel id (Returns model);
        EvTime (time_end env);
        EvGetMemory (get_memory_mb (rss_after env))]) /\
    get_model σ' id = Some info /\
    writes σ σ' id
      (set_load_time_seconds
         (Some (PrimFloat.sub (time_end env) (time_start env)))
        (set_memory_delta_mb
           (Some (PrimFloat.sub (get_memory_mb (rss_after env))
                                (get_memory_mb (rss_before env))))
          (set_memory_after_mb (Some (get_memory_mb (rss_after env)))
            (set_memory_before_mb (Some (get_memory_mb (rss_before env)))
              (set_model_instance (Some model)
                (set_state LOADED
                  (loading_record (entry_record σ id)))))))).
Proof.
  intros Hwf Hn1 Hn2 Hres. unfold load_model.
  pose proof (load_enter_spec σ id Hwf) as Hs. simpl in Hs.
  rewrite decide_False in Hs by tauto.
  destruct Hs as (σ1 & -> & Hw1). rewrite Hres.
  destruct (writes_get_model _ _ _ _ Hw1) as (info & Hg1 & _).
  edestruct (load_commit_spec σ1 id info) as (σ2 & -> & Hw2);
    [by destruct Hw1 | done | by destruct Hw1 as (_ & ? & _) |].
  exists σ2, info. split; [done|]. split.
  - destruct Hw2 as (_ & _ & Hk & _). by apply Hk.
  - by eapply writes_trans.
Qed.

Lemma load_model_error σ id env msg :
  wf_registry σ ->
  state (entry_record σ id) <> LOADED ->
  state (entry_record σ id) <> LOADING ->
  load_result env = Raises (RuntimeError msg) ->
  exists σ' info,
    load_model env σ id
    = (σ', Raises (RuntimeError msg),
       [EvGetMemory (get_memory_mb (rss_before env));
        EvTime (time_start env);
        EvLoadModel id (Raises (RuntimeError msg))]) /\
    get_model σ' id = Some info /\
    writes σ σ' id
      (set_error_message (Some msg)
        (set_state ERROR (loading_record (entry_record σ id)))).
Proof.
  intros Hwf Hn1 Hn2 Hres. unfold load_model.
  pose proof (load_enter_spec σ id Hwf) as Hs. simpl in Hs.
  rewrite decide_False in Hs by tauto.
  destruct Hs as (σ1 & -> & Hw1). rewrite Hres.
  destruct (writes_get_model _ _ _ _ Hw1) as (info & Hg1 & _).
  edestruct (load_fail_spec σ1 id info) as (σ2 & -> & Hw2);
    [by destruct Hw1 | done | by destruct Hw1 as (_ & ? & _) |].
  exists σ2, info. split; [done|]. split.
  - destruct Hw2 as (_ & _ & Hk & _). by apply Hk.
  - by eapply writes_trans.
Qed.

Lemma load_model_uncaught σ id env e :
  wf_registry σ ->
  state (entry_record σ id) <> LOADED ->
  state (entry_record σ id) <> LOADING ->
  load_result env = Raises e -> is_RuntimeError e = false ->
  exists σ' info,
    load_model env σ id
    = (σ', Raises e,
       [EvGetMemory (get_memory_mb (rss_before env));
        EvTime (time_start env);
        EvLoadModel id (Raises e)]) /\
    get_model σ' id = Some info /\
    writes σ σ' id (loading_record (entry_record σ id)).
Proof.
  intros Hwf Hn1 Hn2 Hres He. unfold load_model.
  pose proof (load_enter_spec σ id Hwf) as Hs. simpl in Hs.
  rewrite decide_False in Hs by tauto.
  destruct Hs as (σ1 & -> & Hw1). rewrite Hres.
  destruct (writes_get_model _ _ _ _ Hw1) as (info & Hg1 & _).
  exists σ1, info. by destruct e.
Qed.

(** The external [load_model] is called only from a record that is
    neither [Loaded] nor [Loading], and the trace shows its result. *)
Lemma load_model_called σ id env res :
  wf_registry σ ->
  In (EvLoadModel id res) (load_model env σ id).2 ->
  load_result env = res /\
  state (entry_record σ id) <> LOADED /\
  state (entry_record σ id) <> LOADING.
Proof.
  intros Hwf Hin.
  destruct (decide (state (entry_record σ id) = LOADED
                    \/ state (entry_record σ id) = LOADING)) as [Hst|Hst].
  - pose proof (load_enter_spec σ id Hwf) as Hs. simpl in Hs.
    rewrite decide_True in Hs by done. destruct Hs as (info & _ & _ & He).
    unfold load_model in Hin. rewrite He in Hin. by destruct Hin.
  - split; [|tauto]. destruct (load_result env) as [model|e] eqn:Hres.
    + edestruct (load_model_success σ id env model) as (? & ? & E & _);
        [done | tauto | tauto | done |].
      rewrite E in Hin. simpl in Hin.
      destruct Hin as [|[|[H|[|[|[]]]]]]; congruence.
    + destruct (is_RuntimeError e) eqn:He.
      * destruct e as [msg| | | | |]; try done.
        edestruct (load_model_error σ id env msg) as (? & ? & E & _);
          [done | tauto | tauto | done |].
        rewrite E in Hin. simpl in Hin.
        destruct Hin as [|[|[H|[]]]]; congruence.
      * edestruct (load_model_uncaught σ id env e) as (? & ? & E & _);
          [done | tauto | tauto | done | done |].
        rewrite E in Hin. simpl in Hin.
        destruct Hin as [|[|[H|[]]]]; congruence.
Qed.

Lemma unload_model_loaded σ id info r env :
  wf_registry σ -> get_model σ id = Some info -> record_of σ id = Some r ->
  state r = LOADED ->
  exists σ',
    unload_model env σ id
    = (σ', Returns info,
       [EvGetMemory (get_memory_mb (rss_before_unload env));
        EvGcCollect; EvClearCache;
        EvGetMemory (get_memory_mb (rss_after_unload env))]) /\
    writes σ σ' id
      (set_memory_delta_mb
         (Some (PrimFloat.sub (get_memory_mb (rss_after_unload env))
                              (get_memory_mb (rss_before_unload env))))
        (set_memory_after_mb (Some (get_memory_mb (rss_after_unload env)))
          (set_memory_before_mb
             (Some (get_memory_mb (rss_before_unload env)))
            (set_state UNLOADED
              (set_model_instance None (set_state UNLOADING r)))))).
Proof.
  intros Hwf Hg Hr Hst. unfold unload_model.
  pose proof (unload_enter_spec σ id info r Hwf Hg Hr) as Hs.
  rewrite decide_True in Hs by done. destruct Hs as (σ1 & -> & Hw1).
  assert (get_model σ1 id = Some info) as Hg1.
  { destruct Hw1 as (_ & _ & Hk & _). by apply Hk. }
  edestruct (unload_clear_spec σ1 id info) as (σ2 & -> & Hw2);
    [by destruct Hw1 | done | by destruct Hw1 as (_ & ? & _) |].
  assert (get_model σ2 id = Some info) as Hg2.
  { destruct Hw2 as (_ & _ & Hk & _). by apply Hk. }
  edestruct (unload_commit_spec σ2 id info) as (σ3 & -> & Hw3);
    [by destruct Hw2 | done | by destruct Hw2 as (_ & ? & _) |].
  exists σ3. split; [done|].
  eapply writes_trans; [|done]. by eapply writes_trans.
Qed.

Lemma run_call_load σ id env :
  run_call σ (LoadEntering id env)
  = ((load_model env σ id).1.1, Finished (load_model env σ id).1.2).
Proof.
  unfold run_call, load_model; simpl.
  destruct (load_enter σ id) as [σ1 [res|]]; simpl; [done|].
  destruct (load_result env) as [model|e]; simpl.
  - by destruct (load_commit _ _ _ _ _ _ _) as [σ2 res].
  - destruct e; simpl; try done.
    by destruct (load_fail _ _ _ _) as [σ2 res].
Qed.

Lemma run_call_unload σ id env :
  run_call σ (UnloadEntering id env)
  = ((unload_model env σ id).1.1, Finished (unload_model env σ id).1.2).
Proof.
  unfold run_call, unload_model; simpl.
  destruct (unload_enter σ id) as [σ1 [res|]]; simpl; [done|].
  destruct (unload_clear σ1 id) as [σ2 [[]|e]]; simpl; [|done].
  by destruct (unload_commit _ _ _ _ _) as [σ3 res].
Qed.

(** In the system, a call made when no other is in flight and run to its
    end is the method run from call to return. *)
Lemma thread_step_rtc overlap σ old t :
  rtc (cstep overlap) (σ, old ++ [t])
    ((thread_step σ t).1, old ++ [(thread_step σ t).2]).
Proof.
  destruct (is_finished t) eqn:Hf.
  - destruct t; try discriminate. apply rtc_refl.
  - apply rtc_once.
    replace (old ++ [(thread_step σ t).2])
      with (<[length old := (thread_step σ t).2]> (old ++ [t])).
    + apply cstep_run; [|done].
      by rewrite lookup_app_r, Nat.sub_diag by lia.
    + by rewrite insert_app_r_alt, Nat.sub_diag by lia.
Qed.

Lemma run_call_rtc overlap σ old t :
  rtc (cstep overlap) (σ, old ++ [t])
    ((run_call σ t).1, old ++ [(run_call σ t).2]).
Proof.
  unfold run_call.
  pose proof (thread_step_rtc overlap σ old t) as H1.
  destruct (thread_step σ t) as [σ1 t1]. simpl in H1.
  pose proof (thread_step_rtc overlap σ1 old t1) as H2.
  destruct (thread_step σ1 t1) as [σ2 t2]. simpl in H2.
  pose proof (thread_step_rtc overlap σ2 old t2) as H3.
  by repeat (etrans; [eassumption|]).
Qed.

Lemma load_model_reachable σ pool id env :
  reachable false (σ, pool) -> quiescent pool = true ->
  reachable false ((load_model env σ id).1.1,
                   pool ++ [Finished (load_model env σ id).1.2]).
Proof.
  intros Hreach Hq. unfold reachable.
  etrans; [exact Hreach|].
  eapply rtc_l; [by apply (cstep_call false σ pool (ReqLoad id env))|].
  pose proof (run_call_rtc false σ pool (LoadEntering id env)) as H.
  by rewrite run_call_load in H.
Qed.

Lemma unload_model_reachable σ pool id env :
  reachable false (σ, pool) -> quiescent pool = true ->
  reachable false ((unload_model env σ id).1.1,
                   pool ++ [Finished (unload_model env σ id).1.2]).
Proof.
  intros Hreach Hq. unfold reachable.
  etrans; [exact Hreach|].
  eapply rtc_l; [by apply (cstep_call false σ pool (ReqUnload id env))|].
  pose proof (run_call_rtc false σ pool (UnloadEntering id env)) as H.
  by rewrite run_call_unload in H.
Qed.

End methods.

(** ** The concrete runs are runs of the system *)

Lemma loaded_config_reachable : reachable false loaded_config.
Proof. apply (exec_reachable false loaded_schedule). vm_compute. reflexivity. Qed.

Lemma unloading_config_reachable : reachable false unloading_config.
Proof.
  apply (exec_reachable false unloading_schedule). vm_compute. reflexivity.
Qed.

Lemma racing_config_reachable : reachable true racing_config.
Proof.
  eapply rtc_r; [apply reachable_overlap, unloading_config_reachable|].
  destruct unloading_config as [σ pool] eqn:E. unfold racing_config.
  rewrite E. simpl.
  by apply (cstep_call true σ pool (ReqLoad DESIGN_MODEL example_load)).
Qed.

Lemma failed_config_reachable : reachable false failed_config.
Proof. apply (exec_reachable false failed_schedule). vm_compute. reflexivity. Qed.

(** ** C1: the instance handle and the state *)

(** C1, as stated, fails: after the first critical section of
    [unload_model] (line 196) the lock is free, the state is [Unloading]
    and the instance handle is still there; it is cleared by the next
    critical section (line 205). No second caller is needed to get there. *)
Lemma instance_present_while_unloading :
  exists r,
    reachable false unloading_config /\
    record_of unloading_config.1 DESIGN_MODEL = Some r /\
    state r = UNLOADING /\
    model_instance r = Some example_model /\
    ~ instance_iff_loaded r.
Proof.
  eexists. split; [apply unloading_config_reachable|].
  split; [vm_compute; reflexivity|]. split; [reflexivity|].
  split; [reflexivity|]. intros [H _]. simpl in H.
  discriminate H. by eexists.
Qed.

(** C1 (amended): when calls of load and unload do not overlap, at every
    point where the lock is free a record in state [Loaded] has its
    instance handle and a record with an instance handle is [Loaded] or
    [Unloading]; and whenever no call is in flight, the handle is present
    if and only if the state is [Loaded]. *)
Theorem instance_tracks_state σ pool id r :
  reachable false (σ, pool) ->
  record_of σ id = Some r ->
  (state r = LOADED -> is_Some (model_instance r)) /\
  (is_Some (model_instance r) -> state r = LOADED \/ state r = UNLOADING) /\
  (quiescent pool = true -> instance_iff_loaded r).
Proof.
  intros Hreach Hr. split; [|split].
  - destruct (reachable_seq_inv _ Hreach) as (_ & old & t & _ & _ & Hrec).
    specialize (Hrec _ _ Hr). intros Hst.
    destruct t; simpl in Hrec; try case_decide;
      try (destruct Hrec as [[_ Hl] _]; by apply Hl);
      destruct Hrec as [Hs _]; congruence.
  - destruct (reachable_seq_inv _ Hreach) as (_ & old & t & _ & _ & Hrec).
    specialize (Hrec _ _ Hr). intros Hi.
    destruct t; simpl in Hrec; try case_decide;
      try (destruct Hrec as [[Hl _] _]; left; by apply Hl);
      destruct Hrec as [Hs Hn]; try (by right);
      rewrite Hn in Hi; by destruct Hi.
  - intros Hq. by destruct (quiescent_settled _ _ _ _ Hreach Hq Hr).
Qed.

Lemma instance_tracks_state_witness :
  exists r,
    record_of loaded_config.1 DESIGN_MODEL = Some r /\
    state r = LOADED /\ instance_iff_loaded r.
Proof.
  eexists. split; [vm_compute; reflexivity|]. split; [reflexivity|].
  refine (proj2 (proj2 (instance_tracks_state loaded_config.1 loaded_config.2
                          DESIGN_MODEL _ _ _)) _).
  - apply loaded_config_reachable.
  - vm_compute. reflexivity.
  - reflexivity.
Defined.

(** With overlapping calls the handle and the state come apart for good:
    a load that enters while an unload is between its critical sections
    ends with the record [Loaded] and the handle gone, and, in another
    order, [Unloaded] with the handle kept. *)
Lemma overlap_loses_instance :
  exists c r,
    exec true racing_config [Run 2; Run 2; Run 1] = Some c /\
    record_of c.1 DESIGN_MODEL = Some r /\
    state r = LOADED /\ model_instance r = None.
Proof. eexists _, _. split; [vm_compute; reflexivity|]. by vm_compute. Qed.

Lemma overlap_keeps_instance :
  exists c r,
    exec true racing_config [Run 2; Run 1; Run 2; Run 1] = Some c /\
    quiescent c.2 = true /\
    record_of c.1 DESIGN_MODEL = Some r /\
    state r = UNLOADED /\ model_instance r = Some example_model.
Proof. eexists _, _. split; [vm_compute; reflexivity|]. by vm_compute. Qed.

(** ** C2: what the queries return *)

(** C2, as stated, fails: [get_model] and [get_all_models] return the
    [ModelInfo] object the registry holds, and a later load writes to that
    very object. The record a caller got while the state was [Unloaded]
    reads [Loaded] after the load. *)
Lemma returned_record_is_live :
  exists info,
    get_model registry DESIGN_MODEL = Some info /\
    In info (get_all_models registry) /\
    state (deref registry info) = UNLOADED /\
    state (deref (load_model example_load registry DESIGN_MODEL).1.1
                 info) = LOADED.
Proof.
  exists 4. split; [reflexivity|]. split; [vm_compute; tauto|].
  split; reflexivity.
Qed.

(** C2 (amended): [get(id)] and [getAll()] return references to the
    registry's own records ([getAll] in a new list): the reference
    returned for an identifier is among those [getAll] returns, it stays
    the registry's reference for that identifier through any later load
    or unload, however the calls interleave, and what is read through it
    is the registry's current record, later mutations included. *)
Theorem queries_return_live_references overlap c c' id info :
  reachable overlap c ->
  rtc (cstep overlap) c c' ->
  get_model c.1 id = Some info ->
  In info (get_all_models c.1) /\
  get_model c'.1 id = Some info /\
  In info (get_all_models c'.1) /\
  record_of c'.1 id = Some (deref c'.1 info).
Proof.
  intros Hreach Hrtc Hg.
  destruct (rtc_cstep_frame _ _ _ (reachable_wf _ _ Hreach) Hrtc) as [Hwf' Hk].
  pose proof (Hk _ _ Hg) as Hg'.
  split; [by eapply dict_get_values|]. split; [done|].
  split; [by eapply dict_get_values|]. by apply deref_record.
Qed.

Lemma queries_return_live_references_witness :
  In 4 (get_all_models initial.1) /\
  get_model loaded_config.1 DESIGN_MODEL = Some 4 /\
  In 4 (get_all_models loaded_config.1) /\
  record_of loaded_config.1 DESIGN_MODEL = Some (deref loaded_config.1 4).
Proof.
  apply (queries_return_live_references false initial loaded_config
           DESIGN_MODEL 4).
  - apply rtc_refl.
  - apply loaded_config_reachable.
  - reflexivity.
Defined.

(** ** C3: a load that fails *)

(** C3, as stated, fails: the message recorded is [str(e)], whatever it
    is. When the external call raises [RuntimeError()] the record ends in
    state [Error] with the empty message. *)
Lemma failed_load_with_empty_message :
  exists σ' r,
    load_model (example_load_error "") registry DESIGN_MODEL
    = (σ', Raises (RuntimeError ""),
       [EvGetMemory 100%float; EvTime 1%float;
        EvLoadModel DESIGN_MODEL (Raises (RuntimeError ""))]) /\
    record_of σ' DESIGN_MODEL = Some r /\
    state r = ERROR /\ error_message r = Some "".
Proof. eexists _, _. split; [vm_compute; reflexivity|]. by vm_compute. Qed.

(** Only [RuntimeError] is caught (line 173). When the external call
    raises anything else the record stays [Loading], and every later load
    returns at line 139 without calling the external load again. *)
Lemma uncaught_failure_stays_loading :
  exists σ' info r,
    load_model example_load_oserror registry DESIGN_MODEL
    = (σ', Raises (OtherException "OSError" "repository not found"),
       [EvGetMemory 100%float; EvTime 1%float;
        EvLoadModel DESIGN_MODEL
          (Raises (OtherException "OSError" "repository not found"))]) /\
    record_of σ' DESIGN_MODEL = Some r /\
    state r = LOADING /\ error_message r = None /\
    load_model example_load σ' DESIGN_MODEL = (σ', Returns info, []).
Proof.
  eexists _, _, _. split; [vm_compute; reflexivity|].
  split; [vm_compute; reflexivity|]. by vm_compute.
Qed.

(** C3 (amended): when calls do not overlap, for every identifier and
    every external load call that fails with a [RuntimeError] of message
    [msg], [load(id)] leaves the record with the instance absent and in
    state [Error] with [errorMessage = msg] (non-empty when [msg] is),
    changes no other field, raises the same error to the caller, and a
    following [load(id)] whose external call succeeds ends in [Loaded]. *)
Theorem load_failure_recorded σ pool id env msg :
  reachable false (σ, pool) ->
  quiescent pool = true ->
  In (EvLoadModel id (Raises (RuntimeError msg))) (load_model env σ id).2 ->
  exists σ' info r',
    (load_model env σ id).1 = (σ', Raises (RuntimeError msg)) /\
    get_model σ' id = Some info /\
    record_of σ' id = Some r' /\
    state r' = ERROR /\
    error_message r' = Some msg /\
    (msg <> "" -> error_message r' <> Some "") /\
    model_instance r' = None /\
    model_id r' = model_id (entry_record σ id) /\
    memory_before_mb r' = memory_before_mb (entry_record σ id) /\
    memory_after_mb r' = memory_after_mb (entry_record σ id) /\
    memory_delta_mb r' = memory_delta_mb (entry_record σ id) /\
    load_time_seconds r' = load_time_seconds (entry_record σ id) /\
    model_instance r' = model_instance (entry_record σ id) /\
    forall env2 model,
      load_result env2 = Returns model ->
      exists σ'' r'',
        (load_model env2 σ' id).1 = (σ'', Returns info) /\
        record_of σ'' id = Some r'' /\
        state r'' = LOADED /\ model_instance r'' = Some model.
Proof.
  intros Hreach Hq Hin.
  pose proof (reachable_wf _ _ Hreach) as Hwf. simpl in Hwf.
  destruct (load_model_called _ _ _ _ Hwf Hin) as (Hres & Hn1 & Hn2).
  destruct (load_model_error _ _ _ _ Hwf Hn1 Hn2 Hres)
    as (σ' & info & E & Hg & Hw).
  assert (settled (entry_record σ id)) as Hset.
  { apply settled_entry. intros r Hr. by eapply quiescent_settled. }
  pose proof (settled_no_instance _ Hset Hn1) as Hnone.
  pose proof Hw as (Hwf' & Hr' & _).
  eexists σ', info, _. rewrite E. split; [done|]. split; [done|].
  split; [exact Hr'|]. simpl.
  split; [done|]. split; [done|]. split; [congruence|].
  do 6 (split; [done|]). split; [by rewrite Hnone|].
  intros env2 model Hres2.
  edestruct (load_model_success σ' id env2 model)
    as (σ'' & info2 & E2 & Hg2 & Hw2); [done | | | done |].
  { by rewrite (entry_record_Some _ _ _ Hr'). }
  { by rewrite (entry_record_Some _ _ _ Hr'). }
  pose proof Hw2 as (_ & Hr'' & Hk & _).
  rewrite (Hk _ Hg) in Hg2. injection Hg2 as <-.
  eexists σ'', _. rewrite E2. split; [done|]. split; [exact Hr''|]. by simpl.
Qed.

Lemma load_failure_recorded_witness :
  exists σ' r',
    (load_model (example_load_error "out of memory") registry
       DESIGN_MODEL).1 = (σ', Raises (RuntimeError "out of memory")) /\
    record_of σ' DESIGN_MODEL = Some r' /\
    state r' = ERROR /\ error_message r' = Some "out of memory" /\
    model_instance r' = None.
Proof.
  destruct (load_failure_recorded registry [] DESIGN_MODEL
              (example_load_error "out of memory") "out of memory")
    as (σ' & info & r' & E & _ & Hr & Hs & Hm & _ & Hi & _).
  - apply rtc_refl.
  - reflexivity.
  - vm_compute. tauto.
  - exists σ', r'. tauto.
Defined.

(** ** C4: identifiers outside the catalog *)

(** C4, as stated, fails for unload: line 188 rejects an identifier that
    has no record with [ValueError], and no record is created. *)
Lemma unload_rejects_unknown_id :
  get_model registry "C" = None /\
  unload_model example_unload registry "C"
  = (registry, Raises (ValueError "Unknown model: C"), []) /\
  get_model (unload_model example_unload registry "C").1.1 "C" = None.
Proof. split; [reflexivity|]. split; reflexivity. Qed.

Lemma load_model_keeps σ id env :
  wf_registry σ ->
  wf_registry (load_model env σ id).1.1 /\
  keeps_refs σ (load_model env σ id).1.1 /\
  exists info, get_model (load_model env σ id).1.1 id = Some info.
Proof.
  intros Hwf.
  destruct (decide (state (entry_record σ id) = LOADED
                    \/ state (entry_record σ id) = LOADING)) as [Hst|Hst].
  - pose proof (load_enter_spec σ id Hwf) as Hs. simpl in Hs.
    rewrite decide_True in Hs by done. destruct Hs as (info & Hg & _ & He).
    unfold load_model. rewrite He. simpl. split; [done|].
    split; [by intros ? ?|]. by exists info.
  - destruct (load_result env) as [model|e] eqn:Hres.
    + edestruct (load_model_success σ id env model) as (σ' & info & E & Hg & Hw);
        [done | tauto | tauto | done |].
      rewrite E. simpl. split; [by destruct Hw|].
      split; [by eapply writes_keeps_refs|]. by exists info.
    + destruct (is_RuntimeError e) eqn:He.
      * destruct e as [msg| | | | |]; try done.
        edestruct (load_model_error σ id env msg) as (σ' & info & E & Hg & Hw);
          [done | tauto | tauto | done |].
        rewrite E. simpl. split; [by destruct Hw|].
        split; [by eapply writes_keeps_refs|]. by exists info.
      * edestruct (load_model_uncaught σ id env e) as (σ' & info & E & Hg & Hw);
          [done | tauto | tauto | done | done |].
        rewrite E. simpl. split; [by destruct Hw|].
        split; [by eapply writes_keeps_refs|]. by exists info.
Qed.

Lemma unload_model_returns σ id info env :
  wf_registry σ -> get_model σ id = Some info ->
  (unload_model env σ id).1.2 = Returns info.
Proof.
  intros Hwf Hg. pose proof (deref_record _ _ _ Hwf Hg) as Hr.
  destruct (decide (state (deref σ info) = LOADED)) as [Hst|Hst].
  - edestruct (unload_model_loaded σ id info) as (σ' & -> & _); done.
  - by rewrite (unload_model_noop _ _ _ env Hg Hst).
Qed.

(** C4 (amended): for every identifier that has no record, [unload(id)] is
    rejected with the error "Unknown model: id" and changes nothing, while
    [load(id)] is accepted: it behaves as on a registry in which the
    identifier was registered beforehand with a fresh [Unloaded] record,
    and once it has run, [unload(id)] is accepted too. *)
Theorem unknown_id_load_creates_unload_rejects σ id :
  wf_registry σ ->
  get_model σ id = None ->
  (forall env,
     unload_model env σ id
     = (σ, Raises (ValueError ("Unknown model: " ++ id)), [])) /\
  record_of (register σ id) id = Some (ModelInfo_new id) /\
  (forall env, load_model env σ id = load_model env (register σ id) id) /\
  (forall env, exists info,
     get_model (load_model env σ id).1.1 id = Some info /\
     forall env',
       (unload_model env' (load_model env σ id).1.1 id).1.2 = Returns info).
Proof.
  intros Hwf Hn. split; [intros env; by apply unload_model_unknown|].
  split; [by rewrite record_of_register, decide_True|]. split.
  - intros env. unfold load_model, load_enter.
    rewrite (proj2 (dict_contains_false _ _) Hn).
    assert (dict_contains (_models (register σ id)) id = true) as ->; [|done].
    apply dict_contains_true. unfold register; simpl.
    rewrite dict_get_setitem, decide_True by done. by eexists.
  - intros env. destruct (load_model_keeps σ id env Hwf) as (Hwf' & _ & info & Hg).
    exists info. split; [done|]. intros env'. by apply unload_model_returns.
Qed.

Lemma unknown_id_load_creates_unload_rejects_witness :
  unload_model example_unload registry "C"
  = (registry, Raises (ValueError "Unknown model: C"), []) /\
  load_model example_load registry "C"
  = load_model example_load (register registry "C") "C".
Proof.
  destruct (unknown_id_load_creates_unload_rejects registry "C")
    as (Hu & _ & Hl & _).
  - apply wf_init.
  - reflexivity.
  - split; [apply Hu | apply Hl].
Defined.

(** ** C5: load on a loaded or loading record *)

(** C5: for every identifier whose record is [Loaded] or [Loading],
    [load(id)] returns the registry's record for it and leaves the whole
    registry as it was, [loadTimeSeconds] included, without any call to
    the outside world, the external load in particular. *)
Theorem load_loaded_is_noop σ id info env :
  get_model σ id = Some info ->
  state (deref σ info) = LOADED \/ state (deref σ info) = LOADING ->
  load_model env σ id = (σ, Returns info, []).
Proof. apply load_model_noop. Qed.

Lemma load_loaded_is_noop_witness :
  load_model example_load loaded_config.1 DESIGN_MODEL
  = (loaded_config.1, Returns 4, []).
Proof.
  apply (load_loaded_is_noop loaded_config.1 DESIGN_MODEL 4 example_load).
  - reflexivity.
  - left. reflexivity.
Defined.

(** ** C6: the lifecycle *)

(** However the calls interleave, no step removes a record. *)
Lemma cstep_keeps_records overlap c c' id :
  reachable overlap c -> cstep overlap c c' ->
  is_Some (record_of c.1 id) -> is_Some (record_of c'.1 id).
Proof.
  intros Hreach Hstep [r Hr].
  pose proof (reachable_wf _ _ Hreach) as Hwf.
  destruct (cstep_frame _ _ _ Hwf Hstep) as [Hwf' Hk].
  destruct (get_model c.1 id) as [l|] eqn:Hg.
  - exists (deref c'.1 l). apply deref_record; [done|]. by apply Hk.
  - by rewrite (record_of_absent _ _ Hg) in Hr.
Qed.

(** C6: every record starts in state [Unloaded], no record is ever
    removed, and, with the calls of load and unload made one at a time, as
    the server's handlers make them, every step of every run takes a
    record's state along one of the six listed transitions or leaves it:
    no other transition is reachable. A record created by load is created
    [Unloaded] and taken to [Loading] in the same critical section. *)
Theorem lifecycle_transitions c c' id :
  reachable false c ->
  cstep false c c' ->
  (forall id0, state (ModelInfo_new id0) = UNLOADED) /\
  (forall id0 r0, record_of initial.1 id0 = Some r0 -> state r0 = UNLOADED) /\
  (is_Some (record_of c.1 id) -> is_Some (record_of c'.1 id)) /\
  step_ok c.1 c'.1 id.
Proof.
  intros Hreach Hstep. split; [done|]. split.
  { intros id0 r0 Hr0. by destruct (init_records _ _ Hr0) as [? ->]. }
  split; [by apply (cstep_keeps_records false)|].
  by destruct (seq_inv_step _ _ (reachable_seq_inv _ Hreach) Hstep) as [_ Hok].
Qed.

(** The step from [Loaded] to [Unloading] of an unload of the design
    model. *)
Lemma lifecycle_transitions_witness :
  step_ok loaded_config.1 unloading_config.1 DESIGN_MODEL.
Proof.
  refine (proj2 (proj2 (proj2
    (lifecycle_transitions
       (loaded_config.1,
        loaded_config.2 ++ [spawn (ReqUnload DESIGN_MODEL example_unload)])
       unloading_config DESIGN_MODEL _ _)))).
  - eapply rtc_r; [apply loaded_config_reachable|].
    by apply (cstep_call false loaded_config.1 loaded_config.2
                (ReqUnload DESIGN_MODEL example_unload)).
  - by apply (cstep_run false loaded_config.1
                (loaded_config.2
                 ++ [spawn (ReqUnload DESIGN_MODEL example_unload)])
                1 (UnloadEntering DESIGN_MODEL example_unload)).
Defined.

(** No call can arrive while the unload of [unloading_config] is between
    its critical sections when calls are made one at a time. *)
Lemma no_call_during_unload :
  exec false unloading_config [Call (ReqLoad DESIGN_MODEL example_load)]
  = None.
Proof. reflexivity. Qed.

(** Were calls to overlap, which the lock allows and no caller does, a
    load entering at that point would find the state [Unloading], which
    lines 133-139 let through, and move the record from [Unloading] to
    [Loading]: the first step of the race of [overlap_loses_instance]. *)
Lemma load_during_unload_enters_loading :
  exists c' r r',
    reachable true racing_config /\
    cstep true racing_config c' /\
    record_of racing_config.1 DESIGN_MODEL = Some r /\
    record_of c'.1 DESIGN_MODEL = Some r' /\
    state r = UNLOADING /\ state r' = LOADING /\
    ~ step_ok racing_config.1 c'.1 DESIGN_MODEL.
Proof.
  eexists _, _, _. split; [apply racing_config_reachable|].
  split; [by apply (cstep_run true racing_config.1 racing_config.2 2
                      (LoadEntering DESIGN_MODEL example_load))|].
  split; [vm_compute; reflexivity|]. split; [vm_compute; reflexivity|].
  split; [reflexivity|]. split; [reflexivity|].
  intros [H|H]; [discriminate H | inversion H].
Qed.

(** ** C7: unload on a record that is not loaded *)

(** C7: for every registered identifier whose record is not [Loaded],
    [unload(id)] returns the registry's record for it and leaves every
    field of every record as it was. *)
Theorem unload_not_loaded_is_noop σ id info env :
  get_model σ id = Some info ->
  state (deref σ info) <> LOADED ->
  unload_model env σ id = (σ, Returns info, []).
Proof. apply unload_model_noop. Qed.

Lemma unload_not_loaded_is_noop_witness :
  unload_model example_unload failed_config.1 DESIGN_MODEL
  = (failed_config.1, Returns 4, []).
Proof.
  apply (unload_not_loaded_is_noop failed_config.1 DESIGN_MODEL 4
           example_unload).
  - reflexivity.
  - simpl. discriminate.
Defined.

(** ** C8: a load that succeeds *)

(** C8: for every identifier and every successful external load call,
    [load(id)] returns with the record in state [Loaded] holding the model;
    [memoryBeforeMB] is the sample taken before the external call and
    [memoryAfterMB] the one taken after it, [memoryDeltaMB] is their
    difference, and [loadTimeSeconds] is the clock after the call minus
    the clock before it. *)
Theorem load_success_recorded σ id env model :
  wf_registry σ ->
  In (EvLoadModel id (Returns model)) (load_model env σ id).2 ->
  exists σ' info r',
    load_model env σ id
    = (σ', Returns info,
       [EvGetMemory (get_memory_mb (rss_before env));
        EvTime (time_start env);
        EvLoadModel id (Returns model);
        EvTime (time_end env);
        EvGetMemory (get_memory_mb (rss_after env))]) /\
    get_model σ' id = Some info /\
    record_of σ' id = Some r' /\
    state r' = LOADED /\
    model_instance r' = Some model /\
    memory_before_mb r' = Some (get_memory_mb (rss_before env)) /\
    memory_after_mb r' = Some (get_memory_mb (rss_after env)) /\
    memory_delta_mb r'
    = Some (PrimFloat.sub (get_memory_mb (rss_after env))
                          (get_memory_mb (rss_before env))) /\
    load_time_seconds r'
    = Some (PrimFloat.sub (time_end env) (time_start env)).
Proof.
  intros Hwf Hin.
  destruct (load_model_called _ _ _ _ Hwf Hin) as (Hres & Hn1 & Hn2).
  destruct (load_model_success _ _ _ _ Hwf Hn1 Hn2 Hres)
    as (σ' & info & E & Hg & Hw).
  pose proof Hw as (_ & Hr' & _).
  eexists σ', info, _. split; [exact E|]. split; [done|].
  split; [exact Hr'|]. by simpl.
Qed.

Lemma load_success_recorded_witness :
  exists σ' r',
    (load_model example_load registry DESIGN_MODEL).1.1 = σ' /\
    record_of σ' DESIGN_MODEL = Some r' /\
    state r' = LOADED /\
    memory_before_mb r' = Some 100%float /\
    memory_after_mb r' = Some 300%float /\
    memory_delta_mb r' = Some 200%float /\
    load_time_seconds r' = Some 2.5%float.
Proof.
  destruct (load_success_recorded registry DESIGN_MODEL
              example_load example_model)
    as (σ' & info & r' & E & _ & Hr & Hs & _ & Hb & Ha & Hd & Ht).
  - apply wf_init.
  - vm_compute. tauto.
  - exists σ', r'. rewrite E. simpl. repeat split; assumption.
Defined.

(** The same at the step that ends a successful load, whatever other
    calls did to the registry since the load began. *)
Lemma load_commit_step_recorded σ id info env model :
  wf_registry σ -> get_model σ id = Some info ->
  load_result env = Returns model ->
  exists σ' r',
    thread_step σ (LoadCalling id env) = (σ', Finished (Returns info)) /\
    record_of σ' id = Some r' /\
    state r' = LOADED /\
    model_instance r' = Some model /\
    memory_before_mb r' = Some (get_memory_mb (rss_before env)) /\
    memory_after_mb r' = Some (get_memory_mb (rss_after env)) /\
    memory_delta_mb r'
    = Some (PrimFloat.sub (get_memory_mb (rss_after env))
                          (get_memory_mb (rss_before env))) /\
    load_time_seconds r'
    = Some (PrimFloat.sub (time_end env) (time_start env)).
Proof.
  intros Hwf Hg Hres. simpl. rewrite Hres.
  edestruct (load_commit_spec σ id info) as (σ' & -> & Hw);
    [done | done | by apply deref_record |].
  destruct Hw as (_ & Hr & _). eexists _, _.
  split; [reflexivity|]. split; [exact Hr|]. by simpl.
Qed.

(** ** C9: generation needs a loaded model *)

(** C9: for every generation request, in clone, control or design mode,
    if the target model has no record or its record is not [Loaded], the
    request fails with an HTTP 400 error and nothing has been asked of any
    model; and whenever an endpoint does reach a model (generation or the
    saving of audio), the target record was there and [Loaded]. *)
Theorem generation_requires_loaded env σ
    (clone : GenerateCloneRequest.t) (control : GenerateControlRequest.t)
    (design : GenerateDesignRequest.t) :
  (not_loaded σ (GenerateCloneRequest.model_id clone) ->
   generate_clone env σ clone
   = (Raises (HTTPException 400
        ("Model " ++ GenerateCloneRequest.model_id clone ++ " not loaded")),
      [])) /\
  (not_loaded σ (GenerateControlRequest.model_id control) ->
   generate_control env σ control
   = (Raises (HTTPException 400
        ("Model " ++ GenerateControlRequest.model_id control ++ " not loaded")),
      [])) /\
  (not_loaded σ DESIGN_MODEL ->
   generate_design env σ design
   = (Raises (HTTPException 400 "VoiceDesign model not loaded"), [])) /\
  ((generate_clone env σ clone).2 <> [] ->
   exists info, get_model σ (GenerateCloneRequest.model_id clone) = Some info /\
                state (deref σ info) = LOADED) /\
  ((generate_control env σ control).2 <> [] ->
   exists info, get_model σ (GenerateControlRequest.model_id control) = Some info /\
                state (deref σ info) = LOADED) /\
  ((generate_design env σ design).2 <> [] ->
   exists info, get_model σ DESIGN_MODEL = Some info /\
                state (deref σ info) = LOADED).
Proof.
  unfold not_loaded, generate_clone, generate_control, generate_design.
  repeat split.
  - destruct (get_model σ _) as [info|]; [|done]. intros H. by case_decide.
  - destruct (get_model σ _) as [info|]; [|done]. intros H. by case_decide.
  - destruct (get_model σ _) as [info|]; [|done]. intros H. by case_decide.
  - destruct (get_model σ _) as [info|]; [|done]. case_decide as H; [done|].
    intros _. exists info. split; [done|].
    by destruct (decide (state (deref σ info) = LOADED)).
  - destruct (get_model σ _) as [info|]; [|done]. case_decide as H; [done|].
    intros _. exists info. split; [done|].
    by destruct (decide (state (deref σ info) = LOADED)).
  - destruct (get_model σ _) as [info|]; [|done]. case_decide as H; [done|].
    intros _. exists info. split; [done|].
    by destruct (decide (state (deref σ info) = LOADED)).
Qed.

(** On the initial registry, where nothing is loaded, the three endpoints
    refuse; on a registry with the design model loaded, [generate_design]
    reaches the model. *)
Lemma generation_requires_loaded_witness :
  generate_clone (Returns [[]]) registry example_clone
  = (Raises (HTTPException 400 "Model C not loaded"), []) /\
  generate_control (Returns [[]]) registry example_control
  = (Raises (HTTPException 400
       "Model mlx-community/Qwen3-TTS-12Hz-0.6B-CustomVoice-bf16 not loaded"),
     []) /\
  generate_design (Returns [[]]) registry example_design
  = (Raises (HTTPException 400 "VoiceDesign model not loaded"), []) /\
  exists info,
    get_model loaded_config.1 DESIGN_MODEL = Some info /\
    state (deref loaded_config.1 info) = LOADED.
Proof.
  pose proof (generation_requires_loaded (Returns [[]]) registry
                example_clone example_control example_design)
    as (Hc & Hk & Hd & _).
  pose proof (generation_requires_loaded (Returns [[]]) loaded_config.1
                example_clone example_control example_design)
    as (_ & _ & _ & _ & _ & Hg).
  split; [apply Hc; exact I|]. split; [apply Hk; vm_compute; discriminate|].
  split; [apply Hd; vm_compute; discriminate|].
  apply Hg. vm_compute. discriminate.
Defined.

(** ** C10: a new load attempt clears the old message *)

(** C10: whenever [load(id)] takes a record into [Loading], the record's
    [errorMessage] is absent from that moment, whatever it was, and it is
    still absent when the load has succeeded. *)
Theorem load_clears_error_message σ id :
  wf_registry σ ->
  (forall σ1,
     load_enter σ id = (σ1, Proceed) ->
     exists r1,
       record_of σ1 id = Some r1 /\
       state r1 = LOADING /\ error_message r1 = None) /\
  (forall env model,
     In (EvLoadModel id (Returns model)) (load_model env σ id).2 ->
     exists r',
       record_of (load_model env σ id).1.1 id = Some r' /\
       state r' = LOADED /\ error_message r' = None).
Proof.
  intros Hwf. split.
  - intros σ1 He. pose proof (load_enter_spec σ id Hwf) as Hs. simpl in Hs.
    case_decide.
    + destruct Hs as (? & _ & _ & Hs). congruence.
    + destruct Hs as (σ1' & Hs & Hw). rewrite He in Hs. injection Hs as <-.
      destruct Hw as (_ & Hr & _). eexists. split; [exact Hr|]. by simpl.
  - intros env model Hin.
    destruct (load_model_called _ _ _ _ Hwf Hin) as (Hres & Hn1 & Hn2).
    destruct (load_model_success _ _ _ _ Hwf Hn1 Hn2 Hres)
      as (σ' & info & E & Hg & Hw).
    rewrite E. simpl. destruct Hw as (_ & Hr & _).
    eexists. split; [exact Hr|]. by simpl.
Qed.

(** After the failed load of [failed_config] the message is there; a load
    that succeeds leaves none. *)
Lemma load_clears_error_message_witness :
  exists r r',
    record_of failed_config.1 DESIGN_MODEL = Some r /\
    error_message r = Some "out of memory" /\
    record_of (load_model example_load failed_config.1 DESIGN_MODEL).1.1
      DESIGN_MODEL = Some r' /\
    state r' = LOADED /\ error_message r' = None.
Proof.
  destruct (load_clears_error_message failed_config.1 DESIGN_MODEL)
    as [_ H].
  - apply (reachable_wf false failed_config), failed_config_reachable.
  - destruct (H example_load example_model) as (r' & Hr' & Hs & He).
    + vm_compute. tauto.
    + eexists _, r'. split; [vm_compute; reflexivity|].
      split; [reflexivity|]. repeat split; assumption.
Defined.

(** * Further properties *)

(** ** The outcomes of the two methods *)

(** The four ways a call of [load_model] ends. *)
Lemma load_model_cases σ id env :
  wf_registry σ ->
  (exists info,
     (state (entry_record σ id) = LOADED \/ state (entry_record σ id) = LOADING) /\
     get_model σ id = Some info /\
     record_of σ id = Some (entry_record σ id) /\
     load_model env σ id = (σ, Returns info, [])) \/
  (exists σ' info model,
     load_result env = Returns model /\
     load_model env σ id
     = (σ', Returns info,
        [EvGetMemory (get_memory_mb (rss_before env));
         EvTime (time_start env);
         EvLoadModel id (Returns model);
         EvTime (time_end env);
         EvGetMemory (get_memory_mb (rss_after env))]) /\
     get_model σ' id = Some info /\
     writes σ σ' id
       (set_load_time_seconds
          (Some (PrimFloat.sub (time_end env) (time_start env)))
         (set_memory_delta_mb
            (Some (PrimFloat.sub (get_memory_mb (rss_after env))
                                 (get_memory_mb (rss_before env))))
           (set_memory_after_mb (Some (get_memory_mb (rss_after env)))
             (set_memory_before_mb (Some (get_memory_mb (rss_before env)))
               (set_model_instance (Some model)
                 (set_state LOADED
                   (loading_record (entry_record σ id))))))))) \/
  (exists σ' info msg,
     load_result env = Raises (RuntimeError msg) /\
     load_model env σ id
     = (σ', Raises (RuntimeError msg),
        [EvGetMemory (get_memory_mb (rss_before env));
         EvTime (time_start env);
         EvLoadModel id (Raises (RuntimeError msg))]) /\
     get_model σ' id = Some info /\
     writes σ σ' id
       (set_error_message (Some msg)
         (set_state ERROR (loading_record (entry_record σ id))))) \/
  (exists σ' info e,
     load_result env = Raises e /\ is_RuntimeError e = false /\
     load_model env σ id
     = (σ', Raises e,
        [EvGetMemory (get_memory_mb (rss_before env));
         EvTime (time_start env);
         EvLoadModel id (Raises e)]) /\
     get_model σ' id = Some info /\
     writes σ σ' id (loading_record (entry_record σ id))).
Proof.
  intros Hwf.
  destruct (decide (state (entry_record σ id) = LOADED
                    \/ state (entry_record σ id) = LOADING)) as [Hst|Hst].
  - left. pose proof (load_enter_spec σ id Hwf) as Hs. simpl in Hs.
    rewrite decide_True in Hs by done. destruct Hs as (info & Hg & Hr & He).
    exists info. repeat split; try done. unfold load_model. by rewrite He.
  - right. destruct (load_result env) as [model|e] eqn:Hres.
    + left.
      edestruct (load_model_success σ id env model) as (σ' & info & E & Hg & Hw);
        [done | tauto | tauto | done |]. by exists σ', info, model.
    + right. destruct (is_RuntimeError e) eqn:He.
      * left. destruct e as [msg| | | | |]; try done.
        edestruct (load_model_error σ id env msg) as (σ' & info & E & Hg & Hw);
          [done | tauto | tauto | done |]. by exists σ', info, msg.
      * right.
        edestruct (load_model_uncaught σ id env e) as (σ' & info & E & Hg & Hw);
          [done | tauto | tauto | done | done |]. by exists σ', info, e.
Qed.

(** The three ways a call of [unload_model] ends. *)
Lemma unload_model_cases σ id env :
  wf_registry σ ->
  (get_model σ id = None /\
   unload_model env σ id
   = (σ, Raises (ValueError ("Unknown model: " ++ id)), [])) \/
  (exists info,
     get_model σ id = Some info /\ state (deref σ info) <> LOADED /\
     unload_model env σ id = (σ, Returns info, [])) \/
  (exists info σ',
     get_model σ id = Some info /\ state (deref σ info) = LOADED /\
     unload_model env σ id
     = (σ', Returns info,
        [EvGetMemory (get_memory_mb (rss_before_unload env));
         EvGcCollect; EvClearCache;
         EvGetMemory (get_memory_mb (rss_after_unload env))]) /\
     writes σ σ' id
       (set_memory_delta_mb
          (Some (PrimFloat.sub (get_memory_mb (rss_after_unload env))
                               (get_memory_mb (rss_before_unload env))))
         (set_memory_after_mb (Some (get_memory_mb (rss_after_unload env)))
           (set_memory_before_mb
              (Some (get_memory_mb (rss_before_unload env)))
             (set_state UNLOADED
               (set_model_instance None
                 (set_state UNLOADING (deref σ info)))))))).
Proof.
  intros Hwf. destruct (get_model σ id) as [info|] eqn:Hg.
  - right. destruct (decide (state (deref σ info) = LOADED)) as [Hst|Hst].
    + right.
      edestruct (unload_model_loaded σ id info (deref σ info) env)
        as (σ' & E & Hw); [done | done | by apply deref_record | done |].
      by exists info, σ'.
    + left. exists info. split; [done|]. split; [done|].
      by apply unload_model_noop.
  - left. split; [done|]. by apply unload_model_unknown.
Qed.

(** ** X1: an unload that goes through *)

(** X1: [unload(id)] on a record in state [Loaded] returns that record in
    state [Unloaded] with the instance absent; it samples the memory, runs
    the garbage collector, clears the cache and samples again, in that
    order, and stores the two samples and their difference. The load time,
    the error message and the identifier of the record stay as they were. *)
Theorem unload_loaded_recorded σ id info env :
  wf_registry σ ->
  get_model σ id = Some info ->
  state (deref σ info) = LOADED ->
  exists σ' r',
    unload_model env σ id
    = (σ', Returns info,
       [EvGetMemory (get_memory_mb (rss_before_unload env));
        EvGcCollect; EvClearCache;
        EvGetMemory (get_memory_mb (rss_after_unload env))]) /\
    get_model σ' id = Some info /\
    record_of σ' id = Some r' /\
    state r' = UNLOADED /\
    model_instance r' = None /\
    memory_before_mb r' = Some (get_memory_mb (rss_before_unload env)) /\
    memory_after_mb r' = Some (get_memory_mb (rss_after_unload env)) /\
    memory_delta_mb r'
    = Some (PrimFloat.sub (get_memory_mb (rss_after_unload env))
                          (get_memory_mb (rss_before_unload env))) /\
    load_time_seconds r' = load_time_seconds (deref σ info) /\
    error_message r' = error_message (deref σ info) /\
    model_id r' = model_id (deref σ info).
Proof.
  intros Hwf Hg Hst.
  destruct (unload_model_cases σ id env Hwf)
    as [[Hn _]|[(i & Hi & Hns & _)|(i & σ' & Hi & _ & E & Hw)]].
  - congruence.
  - rewrite Hg in Hi. injection Hi as <-. done.
  - rewrite Hg in Hi. injection Hi as <-.
    pose proof Hw as (_ & Hr & Hk & _).
    eexists σ', _. split; [exact E|]. split; [by apply Hk|].
    split; [exact Hr|]. by simpl.
Qed.

Lemma unload_loaded_recorded_witness :
  exists σ' r',
    (unload_model example_unload loaded_config.1 DESIGN_MODEL).1.1 = σ' /\
    record_of σ' DESIGN_MODEL = Some r' /\
    state r' = UNLOADED /\ model_instance r' = None /\
    memory_delta_mb r' = Some (-180)%float /\
    load_time_seconds r' = Some 2.5%float.
Proof.
  destruct (unload_loaded_recorded loaded_config.1 DESIGN_MODEL 4
              example_unload)
    as (σ' & r' & E & _ & Hr & Hs & Hi & _ & _ & Hd & Ht & _).
  - apply (reachable_wf false loaded_config), loaded_config_reachable.
  - reflexivity.
  - reflexivity.
  - exists σ', r'. rewrite E. simpl. repeat split; assumption.
Defined.

(** ** X2: a call touches one record *)

Lemma load_model_writes σ id env :
  wf_registry σ -> exists r', writes σ (load_model env σ id).1.1 id r'.
Proof.
  intros Hwf.
  destruct (load_model_cases σ id env Hwf)
    as [(info & _ & _ & Hr & E)|[(σ' & info & m & _ & E & _ & Hw)
       |[(σ' & info & msg & _ & E & _ & Hw)
        |(σ' & info & e & _ & _ & E & _ & Hw)]]]; rewrite E; simpl.
  - eexists. by apply writes_refl.
  - by eexists.
  - by eexists.
  - by eexists.
Qed.

Lemma unload_model_writes σ id env :
  wf_registry σ ->
  (unload_model env σ id).1.1 = σ \/
  exists r', writes σ (unload_model env σ id).1.1 id r'.
Proof.
  intros Hwf.
  destruct (unload_model_cases σ id env Hwf)
    as [[_ E]|[(i & _ & _ & E)|(i & σ' & _ & _ & E & Hw)]]; rewrite E; simpl.
  - by left.
  - by left.
  - right. by eexists.
Qed.

(** X2: a call of [load(id)] or [unload(id)], whatever its outcome, leaves
    every other identifier with the record object it had and that record
    with every field as it was; it creates no record for another
    identifier. *)
Theorem calls_touch_one_record σ id id' :
  wf_registry σ ->
  id' <> id ->
  (forall env,
     get_model (load_model env σ id).1.1 id' = get_model σ id' /\
     record_of (load_model env σ id).1.1 id' = record_of σ id') /\
  (forall env,
     get_model (unload_model env σ id).1.1 id' = get_model σ id' /\
     record_of (unload_model env σ id).1.1 id' = record_of σ id').
Proof.
  intros Hwf Hne. split; intros env.
  - destruct (load_model_writes σ id env Hwf) as (r' & _ & _ & _ & Ho).
    by apply Ho.
  - destruct (unload_model_writes σ id env Hwf) as [->|(r' & _ & _ & _ & Ho)];
      [done | by apply Ho].
Qed.

Lemma calls_touch_one_record_witness :
  record_of (load_model example_load registry "C").1.1 DESIGN_MODEL
  = record_of registry DESIGN_MODEL /\
  record_of (unload_model example_unload loaded_config.1 DESIGN_MODEL).1.1
    (nth 0 CLONE_MODELS "")
  = record_of loaded_config.1 (nth 0 CLONE_MODELS "").
Proof.
  split.
  - apply (calls_touch_one_record registry "C" DESIGN_MODEL);
      [apply wf_init | discriminate].
  - apply (calls_touch_one_record loaded_config.1 DESIGN_MODEL
             (nth 0 CLONE_MODELS ""));
      [apply (reachable_wf false loaded_config), loaded_config_reachable
      | discriminate].
Defined.

(** ** X3: what the two methods raise *)

(** X3: [load_model] raises nothing of its own: when it raises, the
    external load was called and raised that very exception.
    [unload_model] raises only for an identifier that has no record, and
    then the error "Unknown model: id", with the registry untouched and no
    call to the outside. In particular neither raises [KeyError] from its
    own dict lookups. *)
Theorem methods_raise_only σ id e :
  wf_registry σ ->
  (forall env,
     (load_model env σ id).1.2 = Raises e ->
     load_result env = Raises e /\
     In (EvLoadModel id (Raises e)) (load_model env σ id).2) /\
  (forall env,
     (unload_model env σ id).1.2 = Raises e ->
     e = ValueError ("Unknown model: " ++ id) /\
     get_model σ id = None /\
     unload_model env σ id = (σ, Raises e, [])).
Proof.
  intros Hwf. split; intros env.
  - destruct (load_model_cases σ id env Hwf)
      as [(info & _ & _ & _ & E)|[(σ' & info & m & _ & E & _)
         |[(σ' & info & msg & Hres & E & _)
          |(σ' & info & e' & Hres & _ & E & _)]]]; rewrite E; simpl;
      intros [= <-]; try done; (split; [done|]); tauto.
  - destruct (unload_model_cases σ id env Hwf)
      as [[Hn E]|[(i & _ & _ & E)|(i & σ' & _ & _ & E & _)]]; rewrite E; simpl;
      intros [= <-]; done.
Qed.

Lemma methods_raise_only_witness :
  load_result example_load_oserror
  = Raises (OtherException "OSError" "repository not found") /\
  get_model registry "C" = None.
Proof.
  destruct (methods_raise_only registry DESIGN_MODEL
              (OtherException "OSError" "repository not found") wf_init)
    as [Hl _].
  destruct (methods_raise_only registry "C"
              (ValueError "Unknown model: C") wf_init) as [_ Hu].
  split.
  - apply (Hl example_load_oserror). reflexivity.
  - apply (Hu example_unload). reflexivity.
Defined.

(** ** X4: loading again after an unload *)

(** X4: [Unloaded] is re-enterable: after [unload(id)] on a [Loaded]
    record, a [load(id)] whose external call succeeds calls the external
    load again and ends with the same record object [Loaded], holding the
    new model and the new load's samples and duration. *)
Theorem reload_after_unload σ id info uenv env model :
  wf_registry σ ->
  get_model σ id = Some info ->
  state (deref σ info) = LOADED ->
  load_result env = Returns model ->
  exists σ2 r2,
    load_model env (unload_model uenv σ id).1.1 id
    = (σ2, Returns info,
       [EvGetMemory (get_memory_mb (rss_before env));
        EvTime (time_start env);
        EvLoadModel id (Returns model);
        EvTime (time_end env);
        EvGetMemory (get_memory_mb (rss_after env))]) /\
    record_of σ2 id = Some r2 /\
    state r2 = LOADED /\
    model_instance r2 = Some model /\
    memory_before_mb r2 = Some (get_memory_mb (rss_before env)) /\
    memory_after_mb r2 = Some (get_memory_mb (rss_after env)) /\
    load_time_seconds r2
    = Some (PrimFloat.sub (time_end env) (time_start env)).
Proof.
  intros Hwf Hg Hst Hres.
  destruct (unload_model_cases σ id uenv Hwf)
    as [[Hn _]|[(i & Hi & Hns & _)|(i & σ1 & Hi & _ & E & Hw)]].
  - congruence.
  - rewrite Hg in Hi. injection Hi as <-. done.
  - rewrite Hg in Hi. injection Hi as <-. rewrite E. simpl.
    pose proof Hw as (Hwf1 & Hr1 & Hk1 & _).
    edestruct (load_model_success σ1 id env model)
      as (σ2 & info2 & E2 & Hg2 & Hw2); [done | | | done |].
    { by rewrite (entry_record_Some _ _ _ Hr1). }
    { by rewrite (entry_record_Some _ _ _ Hr1). }
    pose proof Hw2 as (_ & Hr2 & Hk2 & _).
    rewrite (Hk2 _ (Hk1 _ Hg)) in Hg2. injection Hg2 as <-.
    eexists σ2, _. split; [exact E2|]. split; [exact Hr2|]. by simpl.
Qed.

Lemma reload_after_unload_witness :
  exists σ2 r2,
    (load_model example_load
       (unload_model example_unload loaded_config.1 DESIGN_MODEL).1.1
       DESIGN_MODEL).1.1 = σ2 /\
    record_of σ2 DESIGN_MODEL = Some r2 /\
    state r2 = LOADED /\ model_instance r2 = Some example_model.
Proof.
  destruct (reload_after_unload loaded_config.1 DESIGN_MODEL 4 example_unload
              example_load example_model)
    as (σ2 & r2 & E & Hr & Hs & Hi & _).
  - apply (reachable_wf false loaded_config), loaded_config_reachable.
  - reflexivity.
  - reflexivity.
  - reflexivity.
  - exists σ2, r2. rewrite E. simpl. repeat split; assumption.
Defined.

(** ** X5: a record carries its key *)

Lemma entry_record_model_id σ id :
  (forall r, record_of σ id = Some r -> model_id r = id) ->
  model_id (entry_record σ id) = id.
Proof.
  intros H. unfold entry_record.
  destruct (record_of σ id) as [r|]; simpl; [by apply H | done].
Qed.

Lemma step_effect_model_id σ t σ' t' :
  step_effect σ t σ' t' ->
  (forall id r, record_of σ id = Some r -> model_id r = id) ->
  forall id r, record_of σ' id = Some r -> model_id r = id.
Proof.
  intros Heff Hinv.
  destruct Heff as
    [ id env info r Hg Hr Hst | id env σ1 Hn1 Hn2 Hw
    | id env model info r σ2 Hres Hg Hr Hw
    | id env msg info r σ2 Hres Hg Hr Hw
    | id env e Hres He | id env res Hg
    | id env Hg | id env info r Hg Hr Hst | id env r σ1 Hr Hst Hw
    | id env r σ2 Hr Hw | id env Hg
    | id env info r σ3 Hg Hr Hw | id env Hg | res ];
    try exact Hinv;
    intros id0 r0 H0;
    destruct (writes_records _ _ _ _ _ _ Hw H0) as [[-> ->]|[_ Hold]];
    try (by apply Hinv); simpl; try (by apply Hinv).
  apply entry_record_model_id. intros r. apply Hinv.
Qed.

Lemma init_model_id id r :
  record_of ModelRegistry_init id = Some r -> model_id r = id.
Proof.
  unfold ModelRegistry_init.
  generalize (CLONE_MODELS ++ CONTROL_MODELS ++ [DESIGN_MODEL]).
  assert (wf_registry (mkRegistry [] [])) as Hwf by (intros ? ? [=]).
  assert (forall id r, record_of (mkRegistry [] []) id = Some r ->
                       model_id r = id) as H by done.
  revert Hwf H. generalize (mkRegistry [] []).
  intros σ Hwf H ids. revert σ Hwf H id r.
  induction ids as [|a ids IH]; intros σ Hwf H id r; simpl; [by apply H|].
  apply IH; [by apply wf_register|]. intros id0 r0.
  rewrite record_of_register by done. case_decide; [|by apply H].
  by intros [= <-].
Qed.

Lemma rtc_model_id overlap c c' :
  wf_registry c.1 ->
  (forall id r, record_of c.1 id = Some r -> model_id r = id) ->
  rtc (cstep overlap) c c' ->
  forall id r, record_of c'.1 id = Some r -> model_id r = id.
Proof.
  intros Hwf Hinv Hrtc. induction Hrtc as [c|c c1 c' Hstep _ IH]; [done|].
  destruct (cstep_frame _ _ _ Hwf Hstep) as [Hwf1 _]. apply IH; [done|].
  inversion Hstep; subst; simpl in *; [done|].
  eapply step_effect_model_id; [by apply thread_step_effect | done].
Qed.

Lemma reachable_model_id overlap c id r :
  reachable overlap c -> record_of c.1 id = Some r -> model_id r = id.
Proof.
  intros Hreach. eapply (rtc_model_id overlap initial); [apply wf_init| |done].
  intros id0 r0. apply init_model_id.
Qed.

Lemma record_carries_key_aux overlap c id info :
  reachable overlap c ->
  get_model c.1 id = Some info ->
  model_id (deref c.1 info) = id.
Proof.
  intros Hreach Hg. apply (reachable_model_id overlap c); [done|].
  apply deref_record; [by apply (reachable_wf overlap)|done].
Qed.

(** X5: however the calls interleave, the record the registry holds for an
    identifier carries that identifier in its [model_id] field: no call
    writes the field, and a record is created under its own identifier. *)
Theorem record_carries_its_key overlap c id info :
  reachable overlap c ->
  get_model c.1 id = Some info ->
  model_id (deref c.1 info) = id.
Proof.
  apply record_carries_key_aux.
Qed.

Lemma record_carries_its_key_witness :
  model_id (deref racing_config.1 4) = DESIGN_MODEL.
Proof.
  apply (record_carries_its_key true racing_config DESIGN_MODEL 4).
  - apply racing_config_reachable.
  - reflexivity.
Defined.

(** ** X6: the listing *)

Section listing.
Implicit Types (d : dict) (k : string) (v : ref) (σ : ModelRegistry).

Lemma dict_setitem_absent d k v :
  dict_get d k = None -> dict_setitem d k v = d ++ [(k, v)].
Proof.
  induction d as [|[k0 v0] d IH]; simpl; [done|].
  destruct (String.eqb k0 k); [done|]. intros H. by rewrite IH.
Qed.

Lemma dict_get_None_keys d k : dict_get d k = None <-> ~ In k (map fst d).
Proof.
  induction d as [|[k0 v0] d IH]; simpl; [tauto|].
  destruct (String.eqb_spec k0 k) as [->|Hne].
  - split; [done|]. intros H. exfalso. apply H. by left.
  - rewrite IH. tauto.
Qed.

Lemma dict_get_In d k v :
  dict_keys_distinct d -> In (k, v) d -> dict_get d k = Some v.
Proof.
  unfold dict_keys_distinct.
  induction d as [|[k0 v0] d IH]; simpl; [done|].
  intros Hnd [[= -> ->]|Hin].
  - by rewrite String.eqb_refl.
  - apply NoDup_cons in Hnd as [Hnotin Hnd].
    destruct (String.eqb_spec k0 k) as [->|Hne]; [|by apply IH].
    exfalso. apply Hnotin. apply list_elem_of_In.
    apply in_map_iff. by exists (k, v).
Qed.

(** Lines 127-128 add a key at the end or leave the dict. *)
Lemma load_enter_models σ id :
  _models (load_enter σ id).1
  = if dict_contains (_models σ) id then _models σ
    else _models σ ++ [(id, length (objects σ))].
Proof.
  unfold load_enter. destruct (dict_contains (_models σ) id) eqn:Hc.
  - destruct (dict_get (_models σ) id); [|done]. by repeat case_decide.
  - apply dict_contains_false in Hc.
    assert (_models (register σ id)
            = _models σ ++ [(id, length (objects σ))]) as E.
    { unfold register; simpl. by apply dict_setitem_absent. }
    destruct (dict_get (_models (register σ id)) id); [|done].
    by repeat case_decide.
Qed.

Lemma thread_step_models σ t :
  exists more,
    _models (thread_step σ t).1 = _models σ ++ more /\
    (dict_keys_distinct (_models σ) ->
     dict_keys_distinct (_models (thread_step σ t).1)).
Proof.
  destruct t as [id env|id env|id env|id env|id env|res]; simpl.
  - assert (_models (let (σ1, e) := load_enter σ id in
                     match e with
                     | Leave r => (σ1, Finished r)
                     | Proceed => (σ1, LoadCalling id env)
                     end).1 = _models (load_enter σ id).1) as ->.
    { by destruct (load_enter σ id) as [σ1 [r|]]. }
    rewrite load_enter_models.
    destruct (dict_contains (_models σ) id) eqn:Hc.
    + exists []. by rewrite app_nil_r.
    + eexists. split; [done|]. unfold dict_keys_distinct.
      rewrite map_app. simpl. intros Hnd.
      apply NoDup_app. split; [done|]. split; [|apply NoDup_singleton].
      intros x Hx Hx'. apply list_elem_of_In in Hx.
      apply list_elem_of_singleton in Hx'. subst x.
      apply dict_contains_false in Hc. by apply dict_get_None_keys in Hc.
  - exists []. rewrite app_nil_r. unfold load_commit, load_fail.
    destruct (load_result env) as [model|[]];
      destruct (dict_get (_models σ) id); by simpl.
  - exists []. rewrite app_nil_r. unfold unload_enter.
    destruct (negb (dict_contains (_models σ) id)); [done|].
    destruct (dict_get (_models σ) id); [|done]. by case_decide.
  - exists []. rewrite app_nil_r. unfold unload_clear.
    by destruct (dict_get (_models σ) id).
  - exists []. rewrite app_nil_r. unfold unload_commit.
    by destruct (dict_get (_models σ) id).
  - exists []. by rewrite app_nil_r.
Qed.

Lemma rtc_models overlap c c' :
  rtc (cstep overlap) c c' ->
  exists more,
    _models c'.1 = _models c.1 ++ more /\
    (dict_keys_distinct (_models c.1) -> dict_keys_distinct (_models c'.1)).
Proof.
  induction 1 as [c|c c1 c' Hstep _ (more' & E' & Hd')].
  - exists []. by rewrite app_nil_r.
  - assert (exists more, _models c1.1 = _models c.1 ++ more /\
              (dict_keys_distinct (_models c.1) ->
               dict_keys_distinct (_models c1.1))) as (more & E & Hd).
    { inversion Hstep; subst; simpl.
      - exists []. by rewrite app_nil_r.
      - apply thread_step_models. }
    exists (more ++ more'). split; [by rewrite E', E, app_assoc|].
    intros Hnd. by apply Hd', Hd.
Qed.

Lemma init_keys_distinct : dict_keys_distinct (_models ModelRegistry_init).
Proof.
  unfold dict_keys_distinct.
  change (NoDup (CLONE_MODELS ++ CONTROL_MODELS ++ [DESIGN_MODEL])).
  apply NoDup_ListNoDup. repeat constructor; simpl; intuition discriminate.
Qed.

Lemma reachable_keys_distinct overlap c :
  reachable overlap c -> dict_keys_distinct (_models c.1).
Proof.
  intros Hreach. destruct (rtc_models _ _ _ Hreach) as (more & _ & Hd).
  apply Hd, init_keys_distinct.
Qed.

(** The listing is the dict's keys, in the dict's order. *)
Lemma listed_ids_keys overlap c :
  reachable overlap c -> listed_ids c.1 = map fst (_models c.1).
Proof.
  intros Hreach. unfold listed_ids, list_models, get_all_models, dict_values.
  rewrite !map_map. simpl. apply map_ext_in. intros [k v] Hin. simpl.
  apply (record_carries_key_aux overlap c); [done|].
  apply dict_get_In; [by apply (reachable_keys_distinct overlap)|done].
Qed.

End listing.

Lemma custom_config_reachable : reachable false custom_config.
Proof. apply (exec_reachable false custom_schedule). vm_compute. reflexivity. Qed.

Lemma stuck_config_reachable : reachable false stuck_config.
Proof. apply (exec_reachable false stuck_schedule). vm_compute. reflexivity. Qed.

Lemma dict_get_is_Some_keys (d : dict) (k : string) :
  is_Some (dict_get d k) <-> In k (map fst d).
Proof.
  destruct (dict_get d k) as [v|] eqn:E.
  - split; [|by eexists]. intros _.
    destruct (in_dec string_dec k (map fst d)) as [Hin|Hnin]; [done|].
    apply dict_get_None_keys in Hnin. congruence.
  - apply dict_get_None_keys in E. split; [by intros [? [=]] | done].
Qed.

Lemma reachable_refs_distinct overlap c :
  reachable overlap c -> NoDup (get_all_models c.1).
Proof.
  intros Hreach. unfold get_all_models, dict_values.
  pose proof (reachable_keys_distinct _ _ Hreach) as Hk.
  pose proof (reachable_wf _ _ Hreach) as Hwf.
  change (NoDup (snd <$> _models c.1)).
  apply NoDup_fmap_2_strong; [|by eapply (NoDup_fmap_1 fst)].
  intros [k1 l1] [k2 l2] H1 H2. simpl. intros <-.
  apply list_elem_of_In in H1, H2.
  pose proof (dict_get_In _ _ _ Hk H1) as G1.
  pose proof (dict_get_In _ _ _ Hk H2) as G2.
  destruct (Hwf _ _ G1) as [_ Hinj]. by rewrite (Hinj _ G2).
Qed.

(** X6: however the calls interleave, [list_models] and [get_all_models]
    give each registered identifier once, no two identifiers sharing a
    record object, in the order of registration: the catalog first (clone
    models, control models, the design model), then the identifiers
    created by load in the order of their first load; a later listing
    only adds identifiers at the end. *)
Theorem listing_in_registration_order overlap c c' :
  reachable overlap c ->
  rtc (cstep overlap) c c' ->
  NoDup (listed_ids c.1) /\
  NoDup (get_all_models c.1) /\
  (forall id, In id (listed_ids c.1) <-> is_Some (get_model c.1 id)) /\
  (exists later, listed_ids c'.1 = listed_ids c.1 ++ later) /\
  listed_ids initial.1 = CLONE_MODELS ++ CONTROL_MODELS ++ [DESIGN_MODEL].
Proof.
  intros Hreach Hrtc.
  assert (reachable overlap c') as Hreach'.
  { unfold reachable in *. by etrans. }
  rewrite (listed_ids_keys _ _ Hreach), (listed_ids_keys _ _ Hreach').
  split; [by apply (reachable_keys_distinct overlap)|].
  split; [by apply (reachable_refs_distinct overlap)|].
  split; [intros id; symmetry; apply dict_get_is_Some_keys|].
  split; [|reflexivity].
  destruct (rtc_models _ _ _ Hrtc) as (more & -> & _).
  exists (map fst more). by rewrite map_app.
Qed.

Lemma listing_in_registration_order_witness :
  exists later, listed_ids custom_config.1 = listed_ids initial.1 ++ later.
Proof.
  refine (proj1 (proj2 (proj2 (proj2
    (listing_in_registration_order false initial custom_config _ _))))).
  - apply rtc_refl.
  - apply custom_config_reachable.
Defined.

(** ** X7: a load that fails with another exception *)

Section frozen.
Implicit Types (pool : list Thread) (id : string) (t : Thread).

Lemma untouched_lookup pool id i t :
  untouched pool id = true -> pool !! i = Some t -> writing_phase t id = false.
Proof.
  unfold untouched. rewrite forallb_forall. intros H Ht.
  apply negb_true_iff, H, list_elem_of_In. by eapply list_elem_of_lookup_2.
Qed.

Lemma untouched_insert pool id i t :
  untouched pool id = true -> writing_phase t id = false ->
  untouched (<[i:=t]> pool) id = true.
Proof.
  unfold untouched. rewrite !forallb_forall. intros H Ht x Hx.
  apply list_elem_of_In, list_elem_of_lookup in Hx as [j Hj].
  destruct (decide (i = j)) as [->|Hne].
  - destruct (decide (j < length pool)) as [Hlt|Hge].
    + rewrite list_lookup_insert_eq in Hj by done. injection Hj as <-.
      by rewrite Ht.
    + rewrite list_insert_ge in Hj by lia. apply H, list_elem_of_In.
      by eapply list_elem_of_lookup_2.
  - rewrite list_lookup_insert_ne in Hj by done. apply H, list_elem_of_In.
    by eapply list_elem_of_lookup_2.
Qed.

Lemma untouched_spawn pool id req :
  untouched pool id = true -> untouched (pool ++ [spawn req]) id = true.
Proof.
  unfold untouched. rewrite forallb_app. intros ->. by destruct req.
Qed.

Lemma quiescent_untouched pool id :
  quiescent pool = true -> untouched pool id = true.
Proof.
  unfold quiescent, untouched. rewrite !forallb_forall. intros H t Ht.
  specialize (H t Ht). by destruct t.
Qed.

Lemma writing_phase_false_ne t id id' :
  writing_phase t id = false ->
  match t with
  | LoadCalling i _ | UnloadClearing i _ | UnloadCommitting i _ => i = id'
  | _ => False
  end -> id' <> id.
Proof.
  destruct t; simpl; try done; intros H <-;
    by apply bool_decide_eq_false in H.
Qed.

(** A record in [Loading] that no call in flight is loading stays as it
    is through any step. *)
Lemma frozen_step overlap c c' id r :
  wf_registry c.1 -> record_of c.1 id = Some r -> state r = LOADING ->
  untouched c.2 id = true -> cstep overlap c c' ->
  record_of c'.1 id = Some r /\ untouched c'.2 id = true.
Proof.
  intros Hwf Hr Hst Hun Hstep.
  inversion Hstep as [σ pool req Hov | σ pool i t Hi Hf]; subst; simpl in *.
  { split; [done|]. by apply untouched_spawn. }
  pose proof (untouched_lookup _ _ _ _ Hun Hi) as Hph.
  pose proof (thread_step_effect σ t Hwf) as Heff.
  destruct (thread_step σ t) as [σ' t']. simpl in *.
  assert (record_of σ' id = Some r /\ writing_phase t' id = false) as [Hr' Hph'].
  { destruct Heff as
      [ id0 env info r0 Hg Hr0 Hst0 | id0 env σ1 Hn1 Hn2 Hw
      | id0 env model info r0 σ2 Hres Hg Hr0 Hw
      | id0 env msg info r0 σ2 Hres Hg Hr0 Hw
      | id0 env e Hres He | id0 env res Hg
      | id0 env Hg | id0 env info r0 Hg Hr0 Hst0 | id0 env r0 σ1 Hr0 Hst0 Hw
      | id0 env r0 σ2 Hr0 Hw | id0 env Hg
      | id0 env info r0 σ3 Hg Hr0 Hw | id0 env Hg | res ];
      try (split; [done|reflexivity]).
    - assert (id0 <> id) as Hne.
      { intros ->. by rewrite (entry_record_Some _ _ _ Hr) in Hn2. }
      destruct Hw as (_ & _ & _ & Ho). destruct (Ho id (not_eq_sym Hne)) as [_ ->].
      split; [done|]. simpl. by apply bool_decide_eq_false.
    - assert (id0 <> id) as Hne by (by eapply writing_phase_false_ne).
      destruct Hw as (_ & _ & _ & Ho). by destruct (Ho id (not_eq_sym Hne)) as [_ ->].
    - assert (id0 <> id) as Hne by (by eapply writing_phase_false_ne).
      destruct Hw as (_ & _ & _ & Ho). by destruct (Ho id (not_eq_sym Hne)) as [_ ->].
    - assert (id0 <> id) as Hne.
      { intros ->. rewrite Hr in Hr0. injection Hr0 as <-. congruence. }
      destruct Hw as (_ & _ & _ & Ho). destruct (Ho id (not_eq_sym Hne)) as [_ ->].
      split; [done|]. simpl. by apply bool_decide_eq_false.
    - assert (id0 <> id) as Hne by (by eapply writing_phase_false_ne).
      destruct Hw as (_ & _ & _ & Ho). destruct (Ho id (not_eq_sym Hne)) as [_ ->].
      split; [done|]. simpl. by apply bool_decide_eq_false.
    - assert (id0 <> id) as Hne by (by eapply writing_phase_false_ne).
      destruct Hw as (_ & _ & _ & Ho). by destruct (Ho id (not_eq_sym Hne)) as [_ ->]. }
  split; [done|]. by apply untouched_insert.
Qed.

Lemma frozen_rtc overlap c c' id r :
  wf_registry c.1 -> record_of c.1 id = Some r -> state r = LOADING ->
  untouched c.2 id = true -> rtc (cstep overlap) c c' ->
  record_of c'.1 id = Some r.
Proof.
  intros Hwf Hr Hst Hun Hrtc. induction Hrtc as [c|c c1 c' Hstep _ IH]; [done|].
  destruct (frozen_step _ _ _ _ _ Hwf Hr Hst Hun Hstep) as [Hr1 Hun1].
  destruct (cstep_frame _ _ _ Hwf Hstep) as [Hwf1 _]. by apply IH.
Qed.

End frozen.

(** X7: when the external load raises an exception that is not a
    [RuntimeError], [load(id)] passes it on and leaves the record in state
    [Loading] without an error message; from then on, with no call on that
    record in flight, no sequence of load and unload calls, however
    interleaved, changes any field of the record: it stays [Loading]. *)
Theorem uncaught_failure_freezes_record σ id env e :
  wf_registry σ ->
  In (EvLoadModel id (Raises e)) (load_model env σ id).2 ->
  is_RuntimeError e = false ->
  exists r,
    (load_model env σ id).1.2 = Raises e /\
    record_of (load_model env σ id).1.1 id = Some r /\
    state r = LOADING /\
    error_message r = None /\
    forall overlap pool c',
      untouched pool id = true ->
      rtc (cstep overlap) ((load_model env σ id).1.1, pool) c' ->
      record_of c'.1 id = Some r.
Proof.
  intros Hwf Hin He.
  destruct (load_model_called _ _ _ _ Hwf Hin) as (Hres & Hn1 & Hn2).
  destruct (load_model_uncaught _ _ _ _ Hwf Hn1 Hn2 Hres He)
    as (σ' & info & E & Hg & Hw).
  rewrite E. simpl. pose proof Hw as (Hwf' & Hr & _).
  eexists. split; [done|]. split; [exact Hr|]. split; [done|].
  split; [done|]. intros overlap pool c' Hun Hrtc.
  by apply (frozen_rtc overlap (σ', pool) c' id).
Qed.

Lemma uncaught_failure_freezes_record_witness :
  exists r,
    record_of (load_model example_load_oserror registry DESIGN_MODEL).1.1
      DESIGN_MODEL = Some r /\
    state r = LOADING /\
    record_of
      (load_model example_load
         (load_model example_load_oserror registry DESIGN_MODEL).1.1
         DESIGN_MODEL).1.1
      DESIGN_MODEL = Some r.
Proof.
  destruct (uncaught_failure_freezes_record registry DESIGN_MODEL
              example_load_oserror
              (OtherException "OSError" "repository not found"))
    as (r & _ & Hr & Hs & _ & Hfrozen).
  - apply wf_init.
  - vm_compute. tauto.
  - reflexivity.
  - exists r. split; [exact Hr|]. split; [exact Hs|].
    set (σs := (load_model example_load_oserror registry DESIGN_MODEL).1.1)
      in *.
    apply (Hfrozen false []
             ((load_model example_load σs DESIGN_MODEL).1.1,
              [] ++ [Finished (load_model example_load σs DESIGN_MODEL).1.2]));
      [reflexivity|].
    eapply rtc_l;
      [by apply (cstep_call false σs []
                   (ReqLoad DESIGN_MODEL example_load))|].
    pose proof (run_call_rtc false σs []
                  (LoadEntering DESIGN_MODEL example_load)) as H.
    by rewrite run_call_load in H.
Defined.

(** ** X8: the error message and the state *)

(** When calls do not overlap, a step that changes the registry is a step
    of the one call in flight, and the records are as that call expects. *)
Lemma seq_step_effect c c' :
  seq_inv c -> cstep false c c' ->
  c'.1 = c.1 \/
  exists t t',
    step_effect c.1 t c'.1 t' /\
    forall id r, record_of c.1 id = Some r -> expects t id r.
Proof.
  intros (Hwf & old & t & Hq & Hpool & Hrec) Hstep.
  inversion Hstep as [σ pool req Hov | σ pool i t1 Hi Hf]; subst; simpl in *;
    [by left|].
  right. destruct Hpool as [[-> Hf0]|[-> Hf0]].
  { rewrite (quiescent_lookup _ _ _ Hq Hi) in Hf. done. }
  assert (t1 = t) as ->.
  { destruct (decide (i < length old)) as [Hlt|Hge].
    - rewrite lookup_app_l in Hi by done.
      rewrite (quiescent_lookup _ _ _ Hq Hi) in Hf. done.
    - pose proof (lookup_lt_Some _ _ _ Hi) as Hlt.
      rewrite length_app in Hlt. simpl in Hlt.
      assert (i = length old) as -> by lia.
      rewrite lookup_app_r, Nat.sub_diag in Hi by lia.
      simpl in Hi. by injection Hi. }
  exists t, (thread_step σ t).2. split; [by apply thread_step_effect|done].
Qed.

Lemma error_iff_failed_new id : error_iff_failed (ModelInfo_new id).
Proof. split; simpl; [by intros [? [=]] | done]. Qed.

Lemma error_absent r :
  error_iff_failed r -> state r <> ERROR -> error_message r = None.
Proof.
  intros [Hi _] Hst. destruct (error_message r) eqn:E; [|done].
  exfalso. apply Hst, Hi. by eexists.
Qed.

Lemma effect_preserves_error σ t σ' t' :
  step_effect σ t σ' t' ->
  (forall id r, record_of σ id = Some r -> expects t id r) ->
  (forall id r, record_of σ id = Some r -> error_iff_failed r) ->
  forall id r, record_of σ' id = Some r -> error_iff_failed r.
Proof.
  intros Heff Hexp Hinv.
  destruct Heff as
    [ id env info r Hg Hr Hst | id env σ1 Hn1 Hn2 Hw
    | id env model info r σ2 Hres Hg Hr Hw
    | id env msg info r σ2 Hres Hg Hr Hw
    | id env e Hres He | id env res Hg
    | id env Hg | id env info r Hg Hr Hst | id env r σ1 Hr Hst Hw
    | id env r σ2 Hr Hw | id env Hg
    | id env info r σ3 Hg Hr Hw | id env Hg | res ];
    try exact Hinv;
    intros id0 r0 H0;
    destruct (writes_records _ _ _ _ _ _ Hw H0) as [[-> ->]|[_ Hold]];
    try (by apply (Hinv _ _ Hold)).
  - split; simpl; [by intros [? [=]] | done].
  - pose proof (Hexp _ _ Hr) as He. simpl in He.
    rewrite decide_True in He by done. destruct He as [Hs _].
    pose proof (error_absent r (Hinv _ _ Hr)) as Hn.
    split; simpl; [|done]. rewrite Hn by congruence. by intros [? [=]].
  - split; simpl; [done | by eexists].
  - pose proof (error_absent r (Hinv _ _ Hr)) as Hn.
    split; simpl; [|done]. rewrite Hn by congruence. by intros [? [=]].
  - pose proof (Hinv _ _ Hr) as [H1 H2]. by split.
  - pose proof (Hexp _ _ Hr) as He. simpl in He.
    rewrite decide_True in He by done. destruct He as [Hs _].
    pose proof (error_absent r (Hinv _ _ Hr)) as Hn.
    split; simpl; [|done]. rewrite Hn by congruence. by intros [? [=]].
Qed.

Lemma init_error_iff_failed id r :
  record_of initial.1 id = Some r -> error_iff_failed r.
Proof.
  intros Hr. destruct (init_records _ _ Hr) as [id' ->].
  apply error_iff_failed_new.
Qed.

Lemma reachable_error_iff_failed c id r :
  reachable false c -> record_of c.1 id = Some r -> error_iff_failed r.
Proof.
  intros Hreach. revert id r. revert c Hreach.
  apply (rtc_ind_r (fun c => forall id r, record_of c.1 id = Some r ->
                                          error_iff_failed r)).
  - apply init_error_iff_failed.
  - intros c1 c2 Hreach1 Hstep IH.
    destruct (seq_step_effect _ _ (reachable_seq_inv _ Hreach1) Hstep)
      as [->|(t & t' & Heff & Hexp)]; [done|].
    by eapply effect_preserves_error.
Qed.

(** X8: when calls of load and unload do not overlap, at every point where
    the lock is free a record has an error message if and only if its
    state is [Error]: a new load attempt clears the message as it leaves
    [Error], and nothing but a caught failure writes one. *)
Theorem error_message_iff_error_state σ pool id r :
  reachable false (σ, pool) ->
  record_of σ id = Some r ->
  error_iff_failed r.
Proof. apply (reachable_error_iff_failed (σ, pool)). Qed.

Lemma error_message_iff_error_state_witness :
  exists r,
    record_of failed_config.1 DESIGN_MODEL = Some r /\
    state r = ERROR /\ error_iff_failed r.
Proof.
  eexists. split; [vm_compute; reflexivity|]. split; [reflexivity|].
  apply (error_message_iff_error_state failed_config.1 failed_config.2
           DESIGN_MODEL).
  - apply failed_config_reachable.
  - vm_compute. reflexivity.
Defined.

(** With overlapping calls a record can end [Loaded] with the message of
    a failure: a load enters while an unload is in progress, the unload
    ends, a second load enters and fails, and the first load succeeds. *)
Lemma overlap_leaves_stale_message :
  exists c r,
    exec true racing_config
      [Run 2; Run 1; Run 1;
       Call (ReqLoad DESIGN_MODEL (example_load_error "out of memory"));
       Run 3; Run 3; Run 2] = Some c /\
    quiescent c.2 = true /\
    record_of c.1 DESIGN_MODEL = Some r /\
    state r = LOADED /\ error_message r = Some "out of memory".
Proof. eexists _, _. split; [vm_compute; reflexivity|]. by vm_compute. Qed.

(** ** X9: a loaded model is found *)

(** X9: when calls of load and unload do not overlap and none is in
    flight, a generation request whose target record is [Loaded] finds
    the model in the record and calls its generator first of all: the
    lookup [info.model_instance] never yields [None] there. *)
Theorem generation_finds_instance σ pool env
    (clone : GenerateCloneRequest.t) (control : GenerateControlRequest.t)
    (design : GenerateDesignRequest.t) :
  reachable false (σ, pool) ->
  quiescent pool = true ->
  (forall info,
     get_model σ (GenerateCloneRequest.model_id clone) = Some info ->
     state (deref σ info) = LOADED ->
     exists m kwargs rest,
       model_instance (deref σ info) = Some m /\
       (generate_clone env σ clone).2
       = EvGenerate m "generate" kwargs :: rest) /\
  (forall info,
     get_model σ (GenerateControlRequest.model_id control) = Some info ->
     state (deref σ info) = LOADED ->
     exists m kwargs rest,
       model_instance (deref σ info) = Some m /\
       (generate_control env σ control).2
       = EvGenerate m "generate_custom_voice" kwargs :: rest) /\
  (forall info,
     get_model σ DESIGN_MODEL = Some info ->
     state (deref σ info) = LOADED ->
     exists m kwargs rest,
       model_instance (deref σ info) = Some m /\
       (generate_design env σ design).2
       = EvGenerate m "generate_voice_design" kwargs :: rest).
Proof.
  intros Hreach Hq.
  pose proof (reachable_wf _ _ Hreach) as Hwf. simpl in Hwf.
  assert (forall id info, get_model σ id = Some info ->
            state (deref σ info) = LOADED ->
            exists m, model_instance (deref σ info) = Some m) as Hm.
  { intros id info Hg Hst.
    destruct (quiescent_settled _ _ _ _ Hreach Hq
                (deref_record _ _ _ Hwf Hg)) as [[_ Hi] _].
    destruct (Hi Hst) as [m Hm]. by exists m. }
  repeat split; intros info Hg Hst; destruct (Hm _ _ Hg Hst) as [m Hi];
    exists m.
  - unfold generate_clone. rewrite Hg, decide_False, Hi by (by intros ?).
    destruct env as [[|a l]|e]; simpl; by eexists _, _.
  - unfold generate_control. rewrite Hg, decide_False, Hi by (by intros ?).
    destruct env as [[|a l]|e]; simpl; by eexists _, _.
  - unfold generate_design. rewrite Hg, decide_False, Hi by (by intros ?).
    destruct env as [[|a l]|e]; simpl; by eexists _, _.
Qed.

Lemma generation_finds_instance_witness :
  exists kwargs rest,
    (generate_design (Returns [[]]) loaded_config.1 example_design).2
    = EvGenerate example_model "generate_voice_design" kwargs :: rest.
Proof.
  destruct (generation_finds_instance loaded_config.1 loaded_config.2
              (Returns [[]]) example_clone example_control example_design)
    as (_ & _ & Hd).
  - apply loaded_config_reachable.
  - reflexivity.
  - destruct (Hd 4) as (m & kwargs & rest & Hm & E);
      [reflexivity | reflexivity |].
    injection Hm as <-. by exists kwargs, rest.
Defined.

(** With overlapping calls the record can be [Loaded] with the instance
    gone (see [overlap_loses_instance]); a generation request then fails
    on [model.sample_rate]. *)
Lemma overlap_breaks_generation :
  exists c,
    exec true racing_config [Run 2; Run 2; Run 1] = Some c /\
    generate_design (Returns [[]]) c.1 example_design
    = (Raises (AttributeError
                 "'NoneType' object has no attribute 'sample_rate'"), []).
Proof. eexists. split; [vm_compute; reflexivity|]. by vm_compute. Qed.

(** ** X10: what is saved *)

Lemma generate_with_saved env inst method kwargs out a rate path :
  In (EvSaveAudio a rate path) (generate_with env inst method kwargs out).2 ->
  exists m rest,
    inst = Some m /\ env = Returns (a :: rest) /\
    rate = sample_rate m /\ path = out.
Proof.
  unfold generate_with. destruct inst as [m|]; [|by intros []].
  destruct env as [[|a0 l]|e]; simpl.
  - intros [|[]]; done.
  - intros [|[[= <- <- <-]|[]]]; [done|]. by exists m, l.
  - intros [|[]]; done.
Qed.

Lemma generate_with_returns env inst method kwargs out resp :
  (generate_with env inst method kwargs out).1 = Returns resp ->
  resp = mkGenerateResponse out true None /\
  exists a rate,
    In (EvSaveAudio a rate out) (generate_with env inst method kwargs out).2.
Proof.
  unfold generate_with. destruct inst as [m|]; [|done].
  destruct env as [[|a0 l]|e]; simpl; try done.
  intros [= <-]. split; [done|]. exists a0, (sample_rate m). tauto.
Qed.

(** X10: in each of the three endpoints, audio is saved only for a target
    record that is [Loaded] and holds a model, only when the generator
    yielded at least one result; what is saved is the first result, at the
    request's output path, with the model's sample rate. A success
    response is returned only after such a save, and it carries that
    path. *)
Theorem audio_saved_is_first_result env σ
    (clone : GenerateCloneRequest.t) (control : GenerateControlRequest.t)
    (design : GenerateDesignRequest.t) a rate path resp :
  (In (EvSaveAudio a rate path) (generate_clone env σ clone).2 ->
   saved_first env σ (GenerateCloneRequest.model_id clone)
     (GenerateCloneRequest.output_path clone) a rate path) /\
  (In (EvSaveAudio a rate path) (generate_control env σ control).2 ->
   saved_first env σ (GenerateControlRequest.model_id control)
     (GenerateControlRequest.output_path control) a rate path) /\
  (In (EvSaveAudio a rate path) (generate_design env σ design).2 ->
   saved_first env σ DESIGN_MODEL
     (GenerateDesignRequest.output_path design) a rate path) /\
  ((generate_clone env σ clone).1 = Returns resp ->
   resp = mkGenerateResponse (GenerateCloneRequest.output_path clone) true None /\
   exists a' rate',
     In (EvSaveAudio a' rate' (GenerateCloneRequest.output_path clone))
        (generate_clone env σ clone).2) /\
  ((generate_control env σ control).1 = Returns resp ->
   resp = mkGenerateResponse (GenerateControlRequest.output_path control)
            true None /\
   exists a' rate',
     In (EvSaveAudio a' rate' (GenerateControlRequest.output_path control))
        (generate_control env σ control).2) /\
  ((generate_design env σ design).1 = Returns resp ->
   resp = mkGenerateResponse (GenerateDesignRequest.output_path design)
            true None /\
   exists a' rate',
     In (EvSaveAudio a' rate' (GenerateDesignRequest.output_path design))
        (generate_design env σ design).2).
Proof.
  unfold generate_clone, generate_control, generate_design, saved_first.
  split; [|split; [|split; [|split; [|split]]]].
  1-3: destruct (get_model σ _) as [info|]; [|by intros []];
       case_decide as Hst; [by intros []|]; intros Hin;
       destruct (generate_with_saved _ _ _ _ _ _ _ _ Hin)
         as (m & rest & Hm & -> & -> & ->);
       exists info, m, rest; repeat split; try done;
       by destruct (decide (state (deref σ info) = LOADED)).
  all: destruct (get_model σ _) as [info|]; [|done];
       case_decide as Hst; [done|]; intros Hres;
       by destruct (generate_with_returns _ _ _ _ _ _ Hres).
Qed.

Lemma audio_saved_is_first_result_witness :
  saved_first (Returns [[1%float]; [2%float]]) loaded_config.1 DESIGN_MODEL
    "/tmp/out.wav" [1%float] 24000 "/tmp/out.wav".
Proof.
  refine (proj1 (proj2 (proj2
    (audio_saved_is_first_result (Returns [[1%float]; [2%float]])
       loaded_config.1 example_clone example_control example_design
       [1%float] 24000 "/tmp/out.wav"
       (mkGenerateResponse "/tmp/out.wav" true None)))) _).
  vm_compute. tauto.
Defined.

(** ** X11: optional arguments *)

Lemma optional_kwarg (key : string) (o : option string)
    (fixed : list (string * string)) (s : string) :
  (forall v, ~ In (key, v) fixed) ->
  In (key, s) (fixed ++ (if truthy o then [(key, default "" o)] else []))
  <-> o = Some s /\ s <> "".
Proof.
  intros Hfixed. rewrite in_app_iff. destruct o as [s0|]; simpl.
  - destruct (String.eqb_spec s0 "") as [->|Hne]; simpl.
    + split; [intros [H|[]]; by apply Hfixed in H|]. by intros [[= <-] ?].
    + split.
      * intros [H|[[= <-]|[]]]; [by apply Hfixed in H | done].
      * intros [[= <-] _]. right. by left.
  - split; [intros [H|[]]; by apply Hfixed in H | by intros [[=] _]].
Qed.

(** X11: the clone endpoint passes [ref_text] to the generator exactly
    when the request carries a non-empty one, and the control endpoint
    [instruct] likewise: an empty string counts as absent. The design
    endpoint always passes [instruct], empty or not. The text, and the
    reference audio, speaker and language, are always passed as given. *)
Theorem optional_arguments env σ
    (clone : GenerateCloneRequest.t) (control : GenerateControlRequest.t)
    (design : GenerateDesignRequest.t) m method kwargs :
  (In (EvGenerate m method kwargs) (generate_clone env σ clone).2 ->
   method = "generate" /\
   In ("text", GenerateCloneRequest.text clone) kwargs /\
   In ("ref_audio", GenerateCloneRequest.ref_audio_path clone) kwargs /\
   forall s, In ("ref_text", s) kwargs <->
             GenerateCloneRequest.ref_text clone = Some s /\ s <> "") /\
  (In (EvGenerate m method kwargs) (generate_control env σ control).2 ->
   method = "generate_custom_voice" /\
   In ("text", GenerateControlRequest.text control) kwargs /\
   In ("speaker", GenerateControlRequest.speaker control) kwargs /\
   In ("language", GenerateControlRequest.language control) kwargs /\
   forall s, In ("instruct", s) kwargs <->
             GenerateControlRequest.instruct control = Some s /\ s <> "") /\
  (In (EvGenerate m method kwargs) (generate_design env σ design).2 ->
   method = "generate_voice_design" /\
   In ("text", GenerateDesignRequest.text design) kwargs /\
   In ("language", GenerateDesignRequest.language design) kwargs /\
   forall s, In ("instruct", s) kwargs <->
             s = GenerateDesignRequest.instruct design).
Proof.
  assert (forall env' inst meth kw out,
            In (EvGenerate m method kwargs)
               (generate_with env' inst meth kw out).2 ->
            method = meth /\ kwargs = kw) as Hgw.
  { intros env' inst meth kw out. unfold generate_with.
    destruct inst as [m'|]; [|by intros []].
    destruct env' as [[|a0 l]|e]; simpl;
      intros [[= _ -> ->]|H]; try done; by destruct H as [|[]]. }
  unfold generate_clone, generate_control, generate_design.
  split; [|split].
  - destruct (get_model σ _) as [info|]; [|by intros []].
    case_decide as Hst; [by intros []|]. cbv zeta. intros Hin.
    destruct (Hgw _ _ _ _ _ Hin) as [-> ->].
    split; [done|]. split; [simpl; tauto|]. split; [simpl; tauto|].
    intros s. apply optional_kwarg. intros v [[=]|[[=]|[]]].
  - destruct (get_model σ _) as [info|]; [|by intros []].
    case_decide as Hst; [by intros []|]. cbv zeta. intros Hin.
    destruct (Hgw _ _ _ _ _ Hin) as [-> ->].
    split; [done|]. split; [simpl; tauto|]. split; [simpl; tauto|].
    split; [simpl; tauto|].
    intros s. apply optional_kwarg. intros v [[=]|[[=]|[[=]|[]]]].
  - destruct (get_model σ _) as [info|]; [|by intros []].
    case_decide as Hst; [by intros []|]. cbv zeta. intros Hin.
    destruct (Hgw _ _ _ _ _ Hin) as [-> ->].
    split; [done|]. split; [simpl; tauto|]. split; [simpl; tauto|].
    intros s. simpl. split.
    + intros [[=]|[[=]|[[= <-]|[]]]]. done.
    + intros ->. tauto.
Qed.

Lemma optional_arguments_witness :
  In ("text", "hello")
     [("text", "hello"); ("language", "English");
      ("instruct", "a calm voice")].
Proof.
  destruct (optional_arguments (Returns [[]]) loaded_config.1
              example_clone example_control example_design example_model
              "generate_voice_design"
              [("text", "hello"); ("language", "English");
               ("instruct", "a calm voice")])
    as (_ & _ & Hd).
  destruct Hd as (_ & Ht & _); [vm_compute; tauto | exact Ht].
Defined.

(** ** The management endpoints *)

Lemma example_python_ok : python_builtins example_python.
Proof. repeat split. Qed.

Lemma entry_record_key overlap σ pool id :
  reachable overlap (σ, pool) -> model_id (entry_record σ id) = id.
Proof.
  intros Hreach. apply entry_record_model_id. intros r.
  apply (reachable_model_id overlap (σ, pool) id r Hreach).
Qed.

Lemma writes_deref σ σ' id r' info :
  writes σ σ' id r' -> get_model σ' id = Some info -> deref σ' info = r'.
Proof.
  intros Hw Hg. destruct (writes_get_model _ _ _ _ Hw) as (l & Hl & Hd).
  congruence.
Qed.

(** X12: when the external load fails with an exception [e] that
    [except Exception] catches, the load endpoint answers with a response,
    not an error: its state is "error" if [e] is a [RuntimeError] and
    "loading" otherwise, its error is [str(e)] (the message, for a
    [RuntimeError]), and its memory statistics and load time are all
    absent. *)
Theorem load_endpoint_reports_failure py σ req env e :
  python_builtins py ->
  wf_registry σ ->
  In (EvLoadModel (LoadModelRequest.model_id req) (Raises e))
     (load_model env σ (LoadModelRequest.model_id req)).2 ->
  is_Exception py e = true ->
  (load_model_endpoint py env σ req).1.2
  = Returns
      (LoadModelResponse.mk (LoadModelRequest.model_id req)
         (if is_RuntimeError e then "error" else "loading")
         (mkMemoryStats None None None) None (Some (str_exn py e))) /\
  (load_model_endpoint py env σ req).2
  = [EvGetMemory (get_memory_mb (rss_before env));
     EvTime (time_start env);
     EvLoadModel (LoadModelRequest.model_id req) (Raises e)] /\
  (forall msg, e = RuntimeError msg -> str_exn py e = msg).
Proof.
  intros Hpy Hwf Hin Hexc. set (id := LoadModelRequest.model_id req) in *.
  destruct (load_model_called _ _ _ _ Hwf Hin) as (Hres & Hn1 & Hn2).
  split; [|split].
  - unfold load_model_endpoint. fold id.
    destruct (is_RuntimeError e) eqn:He.
    + destruct e as [msg| | | | |]; try done.
      destruct (load_model_error _ _ _ _ Hwf Hn1 Hn2 Hres)
        as (σ' & info & E & Hg & Hw).
      rewrite E, Hexc, Hg. simpl. by rewrite (writes_deref _ _ _ _ _ Hw Hg).
    + destruct (load_model_uncaught _ _ _ _ Hwf Hn1 Hn2 Hres He)
        as (σ' & info & E & Hg & Hw).
      rewrite E, Hexc, Hg. simpl. by rewrite (writes_deref _ _ _ _ _ Hw Hg).
  - unfold load_model_endpoint. fold id.
    destruct (is_RuntimeError e) eqn:He.
    + destruct e as [msg| | | | |]; try done.
      destruct (load_model_error _ _ _ _ Hwf Hn1 Hn2 Hres)
        as (σ' & info & E & Hg & Hw).
      by rewrite E, Hexc.
    + destruct (load_model_uncaught _ _ _ _ Hwf Hn1 Hn2 Hres He)
        as (σ' & info & E & Hg & Hw).
      by rewrite E, Hexc.
  - intros msg ->. by destruct Hpy as (H & _).
Qed.

Lemma load_endpoint_reports_failure_witness :
  (load_model_endpoint example_python example_load_oserror registry
     (LoadModelRequest.mk DESIGN_MODEL)).1.2
  = Returns
      (LoadModelResponse.mk DESIGN_MODEL "loading"
         (mkMemoryStats None None None) None (Some "repository not found")) /\
  (load_model_endpoint example_python (example_load_error "out of memory")
     registry (LoadModelRequest.mk DESIGN_MODEL)).1.2
  = Returns
      (LoadModelResponse.mk DESIGN_MODEL "error"
         (mkMemoryStats None None None) None (Some "out of memory")).
Proof.
  split.
  - refine (proj1 (load_endpoint_reports_failure example_python registry
                     (LoadModelRequest.mk DESIGN_MODEL) example_load_oserror
                     (OtherException "OSError" "repository not found")
                     example_python_ok wf_init _ _));
      [vm_compute; tauto | reflexivity].
  - refine (proj1 (load_endpoint_reports_failure example_python registry
                     (LoadModelRequest.mk DESIGN_MODEL)
                     (example_load_error "out of memory")
                     (RuntimeError "out of memory")
                     example_python_ok wf_init _ _));
      [vm_compute; tauto | reflexivity].
Defined.

(** X13: when the external load succeeds, the load endpoint answers with
    the request's identifier, the state "loaded", the memory sampled
    before and after the external call and their difference, the duration
    of the call, and no error, whatever message an earlier failure had
    left in the record. *)
Theorem load_endpoint_reports_success py overlap σ pool req env model :
  reachable overlap (σ, pool) ->
  In (EvLoadModel (LoadModelRequest.model_id req) (Returns model))
     (load_model env σ (LoadModelRequest.model_id req)).2 ->
  (load_model_endpoint py env σ req).1.2
  = Returns
      (LoadModelResponse.mk (LoadModelRequest.model_id req) "loaded"
         (mkMemoryStats
            (Some (get_memory_mb (rss_before env)))
            (Some (get_memory_mb (rss_after env)))
            (Some (PrimFloat.sub (get_memory_mb (rss_after env))
                                 (get_memory_mb (rss_before env)))))
         (Some (PrimFloat.sub (time_end env) (time_start env)))
         None).
Proof.
  intros Hreach Hin. set (id := LoadModelRequest.model_id req) in *.
  pose proof (reachable_wf _ _ Hreach) as Hwf. simpl in Hwf.
  destruct (load_model_called _ _ _ _ Hwf Hin) as (Hres & Hn1 & Hn2).
  destruct (load_model_success _ _ _ _ Hwf Hn1 Hn2 Hres)
    as (σ' & info & E & Hg & Hw).
  unfold load_model_endpoint. fold id. rewrite E. simpl.
  rewrite (writes_deref _ _ _ _ _ Hw Hg). simpl.
  by rewrite (entry_record_key _ _ _ _ Hreach).
Qed.

Lemma load_endpoint_reports_success_witness :
  (load_model_endpoint example_python example_load failed_config.1
     (LoadModelRequest.mk DESIGN_MODEL)).1.2
  = Returns
      (LoadModelResponse.mk DESIGN_MODEL "loaded"
         (mkMemoryStats (Some 100%float) (Some 300%float) (Some 200%float))
         (Some 2.5%float) None).
Proof.
  apply (load_endpoint_reports_success example_python false failed_config.1
           failed_config.2 (LoadModelRequest.mk DESIGN_MODEL) example_load
           example_model).
  - apply failed_config_reachable.
  - vm_compute. tauto.
Defined.

(** X14: once a load has succeeded, a second request to the load endpoint
    for the same identifier gets the same response, memory statistics and
    load time included, leaves the registry as it is and calls nothing
    outside, whatever the outside would have answered. *)
Theorem load_endpoint_repeats_response py σ req env model env2 :
  wf_registry σ ->
  In (EvLoadModel (LoadModelRequest.model_id req) (Returns model))
     (load_model env σ (LoadModelRequest.model_id req)).2 ->
  load_model_endpoint py env2 (load_model_endpoint py env σ req).1.1 req
  = ((load_model_endpoint py env σ req).1.1,
     (load_model_endpoint py env σ req).1.2, []).
Proof.
  intros Hwf Hin. set (id := LoadModelRequest.model_id req) in *.
  destruct (load_model_called _ _ _ _ Hwf Hin) as (Hres & Hn1 & Hn2).
  destruct (load_model_success _ _ _ _ Hwf Hn1 Hn2 Hres)
    as (σ' & info & E & Hg & Hw).
  unfold load_model_endpoint at 2 3 4. fold id. rewrite E. simpl.
  unfold load_model_endpoint. fold id.
  rewrite (load_model_noop σ' id info env2 Hg); [done|].
  left. by rewrite (writes_deref _ _ _ _ _ Hw Hg).
Qed.

Lemma load_endpoint_repeats_response_witness :
  load_model_endpoint example_python example_load_oserror
    (load_model_endpoint example_python example_load registry
       (LoadModelRequest.mk DESIGN_MODEL)).1.1
    (LoadModelRequest.mk DESIGN_MODEL)
  = ((load_model_endpoint example_python example_load registry
        (LoadModelRequest.mk DESIGN_MODEL)).1.1,
     (load_model_endpoint example_python example_load registry
        (LoadModelRequest.mk DESIGN_MODEL)).1.2, []).
Proof.
  apply (load_endpoint_repeats_response example_python registry
           (LoadModelRequest.mk DESIGN_MODEL) example_load example_model
           example_load_oserror).
  - apply wf_init.
  - vm_compute. tauto.
Defined.

(** X15: a request to the unload endpoint for an identifier that has no
    record is answered with a response, not an error: state "error", the
    error "Unknown model: id", no memory statistics; the registry is left
    as it is and nothing is called outside. *)
Theorem unload_endpoint_unknown_id py σ req env :
  python_builtins py ->
  get_model σ (LoadModelRequest.model_id req) = None ->
  unload_model_endpoint py env σ req
  = (σ,
     Returns
       (UnloadModelResponse.mk (LoadModelRequest.model_id req) "error"
          (mkMemoryStats None None None)
          (Some ("Unknown model: " ++ LoadModelRequest.model_id req)%string)),
     []).
Proof.
  intros (_ & Hstr & _ & Hexc & _) Hn. unfold unload_model_endpoint.
  by rewrite (unload_model_unknown _ _ env Hn), Hexc, Hstr.
Qed.

Lemma unload_endpoint_unknown_id_witness :
  unload_model_endpoint example_python example_unload registry
    (LoadModelRequest.mk "C")
  = (registry,
     Returns
       (UnloadModelResponse.mk "C" "error" (mkMemoryStats None None None)
          (Some "Unknown model: C")),
     []).
Proof.
  apply (unload_endpoint_unknown_id example_python registry
           (LoadModelRequest.mk "C") example_unload).
  - apply example_python_ok.
  - reflexivity.
Defined.

(** X16: when calls do not overlap, a request to the unload endpoint for a
    [Loaded] model is answered with the request's identifier, the state
    "unloaded", the memory sampled before and after the reclamation and
    their difference, and no error. *)
Theorem unload_endpoint_reports_unloaded py σ pool req env info :
  reachable false (σ, pool) ->
  get_model σ (LoadModelRequest.model_id req) = Some info ->
  state (deref σ info) = LOADED ->
  (unload_model_endpoint py env σ req).1.2
  = Returns
      (UnloadModelResponse.mk (LoadModelRequest.model_id req) "unloaded"
         (mkMemoryStats
            (Some (get_memory_mb (rss_before_unload env)))
            (Some (get_memory_mb (rss_after_unload env)))
            (Some (PrimFloat.sub (get_memory_mb (rss_after_unload env))
                                 (get_memory_mb (rss_before_unload env)))))
         None).
Proof.
  intros Hreach Hg Hst. set (id := LoadModelRequest.model_id req) in *.
  pose proof (reachable_wf _ _ Hreach) as Hwf. simpl in Hwf.
  pose proof (deref_record _ _ _ Hwf Hg) as Hr.
  edestruct (unload_model_loaded σ id info (deref σ info) env)
    as (σ' & E & Hw); [done..|].
  assert (get_model σ' id = Some info) as Hg'.
  { destruct Hw as (_ & _ & Hk & _). by apply Hk. }
  unfold unload_model_endpoint. fold id. rewrite E. simpl.
  rewrite (writes_deref _ _ _ _ _ Hw Hg'). simpl.
  rewrite (reachable_model_id false (σ, pool) id _ Hreach Hr).
  rewrite (error_absent _ (reachable_error_iff_failed (σ, pool) id _ Hreach Hr))
    by congruence.
  done.
Qed.

Lemma unload_endpoint_reports_unloaded_witness :
  (unload_model_endpoint example_python example_unload loaded_config.1
     (LoadModelRequest.mk DESIGN_MODEL)).1.2
  = Returns
      (UnloadModelResponse.mk DESIGN_MODEL "unloaded"
         (mkMemoryStats (Some 300%float) (Some 120%float)
            (Some (-180)%float))
         None).
Proof.
  apply (unload_endpoint_reports_unloaded example_python loaded_config.1
           loaded_config.2 (LoadModelRequest.mk DESIGN_MODEL) example_unload
           4).
  - apply loaded_config_reachable.
  - reflexivity.
  - reflexivity.
Defined.

(** ** X17: the statistics of a record *)

Lemma stats_consistent_new id : stats_consistent (ModelInfo_new id).
Proof.
  split; [by left|]. split; simpl; [by intros [? [=]] | done].
Qed.

Lemma stats_consistent_entry σ id :
  (forall r, record_of σ id = Some r -> stats_consistent r) ->
  stats_consistent (entry_record σ id).
Proof.
  intros H. unfold entry_record.
  destruct (record_of σ id) as [r|]; simpl;
    [by apply H | apply stats_consistent_new].
Qed.

Lemma step_effect_stats σ t σ' t' :
  step_effect σ t σ' t' ->
  (forall id r, record_of σ id = Some r -> stats_consistent r) ->
  forall id r, record_of σ' id = Some r -> stats_consistent r.
Proof.
  intros Heff Hinv.
  destruct Heff as
    [ id env info r Hg Hr Hst | id env σ1 Hn1 Hn2 Hw
    | id env model info r σ2 Hres Hg Hr Hw
    | id env msg info r σ2 Hres Hg Hr Hw
    | id env e Hres He | id env res Hg
    | id env Hg | id env info r Hg Hr Hst | id env r σ1 Hr Hst Hw
    | id env r σ2 Hr Hw | id env Hg
    | id env info r σ3 Hg Hr Hw | id env Hg | res ];
    try exact Hinv;
    intros id0 r0 H0;
    destruct (writes_records _ _ _ _ _ _ Hw H0) as [[-> ->]|[_ Hold]];
    try (by apply (Hinv _ _ Hold)).
  - destruct (stats_consistent_entry σ id (fun r => Hinv id r))
      as (Hm & Hl & _).
    split; [exact Hm|]. split; [exact Hl|]. done.
  - split; [right; by eexists _, _|]. split; simpl; by eexists.
  - destruct (Hinv _ _ Hr) as (Hm & Hl & _).
    split; [exact Hm|]. split; [exact Hl|]. done.
  - destruct (Hinv _ _ Hr) as (Hm & Hl & _).
    split; [exact Hm|]. split; [exact Hl|]. done.
  - destruct (Hinv _ _ Hr) as (Hm & Hl & Hs). by split.
  - split; [right; by eexists _, _|]. split; simpl; [by eexists | done].
Qed.

Lemma reachable_stats_consistent overlap c id r :
  reachable overlap c -> record_of c.1 id = Some r -> stats_consistent r.
Proof.
  intros Hreach. revert id r.
  assert (forall c c', wf_registry c.1 ->
            (forall id r, record_of c.1 id = Some r -> stats_consistent r) ->
            rtc (cstep overlap) c c' ->
            forall id r, record_of c'.1 id = Some r -> stats_consistent r) as H.
  { intros c0 c' Hwf Hinv Hrtc.
    induction Hrtc as [c0|c0 c1 c' Hstep _ IH]; [done|].
    destruct (cstep_frame _ _ _ Hwf Hstep) as [Hwf1 _]. apply IH; [done|].
    inversion Hstep; subst; simpl in *; [done|].
    eapply step_effect_stats; [by apply thread_step_effect | done]. }
  apply (H initial c wf_init); [|done].
  intros id r Hr. destruct (init_records _ _ Hr) as [id' ->].
  apply stats_consistent_new.
Qed.

(** X17: however the calls interleave, the statistics of a record hang
    together: its three memory fields are absent together, or present
    together with [memory_delta_mb = memory_after_mb - memory_before_mb];
    a record with a load time has memory statistics; and a record in
    state [Loaded] has a load time. *)
Theorem statistics_hang_together overlap σ pool id r :
  reachable overlap (σ, pool) ->
  record_of σ id = Some r ->
  stats_consistent r.
Proof. apply (reachable_stats_consistent overlap (σ, pool)). Qed.

Lemma statistics_hang_together_witness :
  exists r,
    record_of racing_config.1 DESIGN_MODEL = Some r /\
    memory_delta_mb r = Some 200%float /\
    stats_consistent r.
Proof.
  eexists. split; [vm_compute; reflexivity|]. split; [reflexivity|].
  apply (statistics_hang_together true racing_config.1 racing_config.2
           DESIGN_MODEL).
  - apply racing_config_reachable.
  - vm_compute. reflexivity.
Defined.
